(** * RethinkDB consistency and admission-control core

    A shallow embedding of [src/store.hpp], [src/store.cc] and
    [src/server/server.cc], followed by the properties of the
    specification that are settled on it.

    Conventions.  A [w]-bit unsigned integer is a [Z] together with its
    wrap-around [wrap w]; mutable objects are records threaded through the
    functions that mutate them; a function that can fault returns an
    [option]. *)

From Stdlib Require Import ZArith List Bool Lia String Ascii Sorted.
Import ListNotations.

Local Open Scope Z_scope.

(* ================================================================== *)
(** * Part I.  The embedding                                           *)
(* ================================================================== *)

(** ** Machine integers *)

(** Value of an integer expression once stored into a [bits]-wide
    unsigned variable. *)
Definition wrap (bits x : Z) : Z := x mod 2 ^ bits.

Definition to_uint8 (x : Z) : Z := wrap 8 x.
Definition to_uint64 (x : Z) : Z := wrap 64 x.

(** Conversion to [int] (32 bits, two's complement), as in
    [int len = strlen(str)]. *)
Definition to_int (x : Z) : Z := (x + 2 ^ 31) mod 2 ^ 32 - 2 ^ 31.

(** ** store.hpp: typedefs *)

Definition mcflags_t := Z.   (* uint32_t *)
Definition exptime_t := Z.   (* uint32_t *)
Definition cas_t := Z.       (* uint64_t *)

(** ** store.hpp: keys

    [store_key_t] is a one-byte length followed by the key's bytes
    ([char contents[0]]: the bytes live in the memory that follows the
    header).  [contents] below is that memory, as many bytes as the buffer
    that holds the key has room for ([store_key_and_buffer_t] gives it
    [MAX_KEY_SIZE] bytes). *)

Record store_key_t : Type := {
  size : Z;                  (* uint8_t *)
  contents : list ascii
}.

(** The bytes of the key proper: the first [size] bytes of [contents]. *)
Definition key_bytes (k : store_key_t) : list ascii :=
  firstn (Z.to_nat (size k)) (contents k).

(** A [store_key_t] object itself, as a struct member ([mut.key]), a local
    or a return value holds it.  [sizeof(store_key_t)] is 1: the object is
    its [size] byte; [char contents[0]] adds no storage, and the bytes that
    follow a key in its buffer are not part of the object. *)
Record store_key_object_t : Type := {
  object_size : Z            (* uint8_t size *)
}.

(** The copy of a [store_key_t] that [mut.key = key] makes (the implicit
    copy assignment): it copies the object, that is, its [size]; the
    bytes of the key stay where they are. *)
Definition copy_key (k : store_key_t) : store_key_object_t :=
  {| object_size := size k |}.

(** [full_size]: [size + offsetof(store_key_t, contents)], as [uint16_t]. *)
Definition full_size (k : store_key_t) : Z := wrap 16 (size k + 1).

(** [strlen]: the number of bytes before the first NUL.  A C string is
    given by the bytes at its address; a list that holds no NUL stands for
    the string terminated right after it. *)
Fixpoint strlen (str : list ascii) : nat :=
  match str with
  | [] => 0
  | c :: rest => if Ascii.eqb c zero then 0 else S (strlen rest)
  end.

(** [memcpy(dest, src, n)] with [n] an [int] converted to [size_t]: a
    negative [n] becomes a count beyond any object, and a count beyond the
    destination or the source is an out-of-bounds access; both fault. *)
Definition memcpy (dest src : list ascii) (n : Z) : option (list ascii) :=
  if (0 <=? n) && (n <=? Z.of_nat (List.length dest)) && (n <=? Z.of_nat (List.length src))
  then Some (firstn (Z.to_nat n) src ++ skipn (Z.to_nat n) dest)
  else None.

Section Keys.

(** [MAX_KEY_SIZE] is a macro defined outside [src/]. *)
Variable MAX_KEY_SIZE : Z.

(** [str_to_key]: [None] when the call faults, otherwise the returned
    [bool] and the buffer after the call. *)
Definition str_to_key (str : list ascii) (buf : store_key_t)
  : option (bool * store_key_t) :=
  let len := to_int (Z.of_nat (strlen str)) in
  if len <=? MAX_KEY_SIZE then
    match memcpy (contents buf) str len with
    | Some bytes => Some (true, {| size := to_uint8 len; contents := bytes |})
    | None => None
    end
  else Some (false, buf).

End Keys.

(** ** store.hpp: results *)

(** [buffer] is [None] for a NULL pointer ("NULL means not found"); the
    buffer group is the list of its buffers.  The callback pointer [cb]
    carries no data and is left out. *)
Record get_result_t : Type := {
  buffer : option (list (list ascii));
  get_flags : mcflags_t;
  get_cas_value : cas_t
}.

Inductive set_result_t : Type :=
| sr_stored
| sr_not_stored
| sr_not_found
| sr_exists
| sr_too_large
| sr_data_provider_failed
| sr_not_allowed.

Inductive incr_decr_res_t : Type :=
| idr_success
| idr_not_found
| idr_not_numeric
| idr_not_allowed.

Record incr_decr_result_t : Type := {
  res : incr_decr_res_t;
  new_value : Z              (* unsigned long long; valid only if idr_success *)
}.

Inductive append_prepend_result_t : Type :=
| apr_success
| apr_too_large
| apr_not_found
| apr_data_provider_failed
| apr_not_allowed.

Inductive delete_result_t : Type :=
| dr_deleted
| dr_not_found
| dr_not_allowed.

(** [mutation_result_t]: a [boost::variant] over the five results. *)
Inductive result_variant : Type :=
| Res_get (r : get_result_t)
| Res_set (r : set_result_t)
| Res_delete (r : delete_result_t)
| Res_incr_decr (r : incr_decr_result_t)
| Res_append_prepend (r : append_prepend_result_t).

Record mutation_result_t : Type := { result : result_variant }.


(** ** Timestamps and castimes

    [repli_timestamp_t] and [castime_t] are declared outside [src/].
    What [store.cc] uses of them: the field [time], the constant
    [distant_past], the comparison behind [std::max] and the
    two-argument constructor [castime_t(cas, timestamp)]. *)

Record repli_timestamp_t : Type := { time : Z }.

(** Modelled from the spec: [repli_timestamp_t::distant_past] is not under
    [src/].  The timestamp is "a logical, monotonically non-decreasing
    per-node clock", so its initial value is the least one; the assertion
    left in [set_timestamp] ([timestamp.time == 0 || timestamp < ts]) names
    that value: 0. *)
Definition distant_past : repli_timestamp_t := {| time := 0 |}.

(** Modelled from the spec: [operator<] of [repli_timestamp_t] is not under
    [src/].  "the advance is a max - it never moves backward": timestamps
    are ordered by their [time]. *)
Definition repli_lt (a b : repli_timestamp_t) : bool := time a <? time b.

(** [std::max(a, b)] is [(a < b) ? b : a]. *)
Definition std_max (a b : repli_timestamp_t) : repli_timestamp_t :=
  if repli_lt a b then b else a.

Record castime_t : Type := {
  castime_cas : cas_t;
  castime_timestamp : repli_timestamp_t
}.

(** ** store.cc: timestamping_set_store_interface_t

    The object holds [target], [cas_counter] and [timestamp].  The sink
    behind [target] is threaded separately (see [ts_change] below). *)

Record timestamping_t : Type := {
  cas_counter : Z;
  timestamp : repli_timestamp_t
}.

(** Constructor: [cas_counter(0), timestamp(repli_timestamp_t::distant_past)]. *)
Definition timestamping_init : timestamping_t :=
  {| cas_counter := 0; timestamp := distant_past |}.

Section Timestamping.

(** The declaration of [cas_counter] is not under [src/]: its width, an
    unsigned integer type of at most 64 bits, is a parameter. *)
Variable counter_bits : Z.

(** [(uint64_t(timestamp.time) << 32) ^ uint64_t(c)] *)
Definition cas_of (ts : repli_timestamp_t) (c : Z) : cas_t :=
  Z.lxor (to_uint64 (Z.shiftl (to_uint64 (time ts)) 32)) (to_uint64 c).

(** [make_castime]: pre-increments the counter, returns
    [castime_t(cas, timestamp)]. *)
Definition make_castime (s : timestamping_t) : castime_t * timestamping_t :=
  let c := wrap counter_bits (cas_counter s + 1) in
  ({| castime_cas := cas_of (timestamp s) c;
      castime_timestamp := timestamp s |},
   {| cas_counter := c; timestamp := timestamp s |}).

(** [set_timestamp]: [timestamp = std::max(timestamp, ts)]. *)
Definition set_timestamp (ts : repli_timestamp_t) (s : timestamping_t)
  : timestamping_t :=
  {| cas_counter := cas_counter s; timestamp := std_max (timestamp s) ts |}.

(** A history of calls on one instance, and the castimes it returns, in
    call order.  [make_castime] is private: each of its calls is made by a
    [change] that passes through the layer. *)
Inductive call : Type :=
| Call_make_castime
| Call_set_timestamp (ts : repli_timestamp_t).

Fixpoint run (calls : list call) (s : timestamping_t)
  : list castime_t * timestamping_t :=
  match calls with
  | [] => ([], s)
  | Call_make_castime :: rest =>
      let (ct, s1) := make_castime s in
      let (cts, s2) := run rest s1 in
      (ct :: cts, s2)
  | Call_set_timestamp ts :: rest => run rest (set_timestamp ts s)
  end.

(** The cas values returned by a history started on a fresh instance. *)
Definition returned_cas (calls : list call) : list cas_t :=
  map castime_cas (fst (run calls timestamping_init)).

End Timestamping.

(** ** store.cc: mutations

    The mutation structs are declared outside [src/]; their fields are the
    ones the convenience methods of [set_store_interface_t] assign.  The
    types of the fields that [store.cc] only copies are parameters.  The
    field [key] is a [store_key_t] held by value ([return m.key] returns
    it as a [store_key_t]): a [store_key_object_t]. *)

Class external_types : Type := {
  data_provider_t : Type;        (* unique_ptr_t<data_provider_t> *)
  add_policy_t : Type;
  replace_policy_t : Type;
  incr_decr_kind_t : Type;
  append_prepend_kind_t : Type;
  sequence_group_t : Type;
  order_token_t : Type
}.

Section Mutations.

Context {T : external_types}.

Record get_cas_mutation_t : Type := { gc_key : store_key_object_t }.

Record sarc_mutation_t : Type := {
  sarc_key : store_key_object_t;
  sarc_data : data_provider_t;
  sarc_flags : mcflags_t;
  sarc_exptime : exptime_t;
  sarc_add_policy : add_policy_t;
  sarc_replace_policy : replace_policy_t;
  sarc_old_cas : cas_t
}.

Record delete_mutation_t : Type := {
  del_key : store_key_object_t;
  dont_put_in_delete_queue : bool
}.

Record incr_decr_mutation_t : Type := {
  id_kind : incr_decr_kind_t;
  id_key : store_key_object_t;
  id_amount : Z              (* uint64_t *)
}.

Record append_prepend_mutation_t : Type := {
  ap_kind : append_prepend_kind_t;
  ap_key : store_key_object_t;
  ap_data : data_provider_t
}.

(** [mutation_t]: a [boost::variant] over the five mutation structs. *)
Inductive mutation_t : Type :=
| Mut_get_cas (m : get_cas_mutation_t)
| Mut_sarc (m : sarc_mutation_t)
| Mut_delete (m : delete_mutation_t)
| Mut_incr_decr (m : incr_decr_mutation_t)
| Mut_append_prepend (m : append_prepend_mutation_t).


(** ** store.cc: set_store_interface_t

    The interface has one pure virtual method, [change]; an implementation
    is an instance of the class below, [St] being the state the method
    can reach (the object, and the sequence group behind the pointer). *)

Class set_store_interface_t (St : Type) : Type := {
  change : sequence_group_t -> mutation_t -> order_token_t -> St
           -> mutation_result_t * St
}.

Section Convenience.

Context {St : Type} {I : set_store_interface_t St}.

(** In each method [key] is a [const store_key_t &], a key where it lies
    with its bytes, and [mut.key = key] stores its copy, [copy_key key]. *)






End Convenience.

(** [set_store_t], the sink behind [target]: its [change] takes the
    castime as an argument. *)
Class set_store_t (K : Type) : Type := {
  change_castime : sequence_group_t -> mutation_t -> castime_t
                   -> order_token_t -> K -> mutation_result_t * K
}.

Section TimestampingChange.

Variable counter_bits : Z.
Context {K : Type} {Target : set_store_t K}.

(** [timestamping_set_store_interface_t::change]:
    [return target->change(seq_group, mutation, make_castime(), token)]. *)
Definition ts_change (seq_group : sequence_group_t) (mutation : mutation_t)
    (token : order_token_t) (st : timestamping_t * K)
  : mutation_result_t * (timestamping_t * K) :=
  let (s, k) := st in
  let (ct, s') := make_castime counter_bits s in
  let (r, k') := change_castime seq_group mutation ct token k in
  (r, (s', k')).

(** The timestamping layer is a [set_store_interface_t]. *)
Definition timestamping_set_store_interface
  : set_store_interface_t (timestamping_t * K) :=
  {| change := ts_change |}.

End TimestampingChange.

End Mutations.

(** ** The gate of the gated stores

    [server/gated_store.hpp] is not under [src/]; [server.cc] only
    constructs the two gated stores and, in standalone mode, their
    [open_t] guards.  The gate is modelled from section 4.3 of the
    specification, as a state machine whose events are the atomic steps of
    the operations; an interleaving of concurrent callers is a list of
    events. *)

(** Modelled from the spec: the gate of [gated_get_store_t] and
    [gated_set_store_interface_t] (not under [src/]): "a per-operation-class
    boolean open/closed flag plus an in-flight-operation count", and whether
    a close is waiting for the count to reach zero. *)
Record gate_t : Type := {
  is_open : bool;
  in_flight : nat;
  close_pending : bool
}.

(** Modelled from the spec: the gate's initial state (not under [src/]):
    "States per class: CLOSED (initial)". *)
Definition gate_init : gate_t :=
  {| is_open := false; in_flight := 0; close_pending := false |}.

(** Modelled from the spec: the operations on a gate (not under [src/]).
    [Gate_enter] and [Gate_leave] are [enter()] and [leave()];
    [Gate_open] is the entry of an [open_scope] (construction of an
    [open_t]); its exit (destruction of the [open_t]) is [Gate_close], which
    closes the gate, followed by [Gate_closed], the return of the
    destructor. *)
Inductive gate_event : Type :=
| Gate_enter
| Gate_leave
| Gate_open
| Gate_close
| Gate_closed.

(** Modelled from the spec: what a caller observes (not under [src/]):
    [enter()] admits the call or "fails immediately with a gate closed
    condition". *)
Inductive gate_response : Type :=
| Enter_ok
| Enter_refused
| Step_done.

(** Modelled from the spec: one step of the gate (not under [src/]).
    [None]: the event cannot happen in this state - a [leave()] without an
    admitted operation, a second mutator of the open/closed flag, or the
    return of a close that still "blocks until all in-flight operations
    observed at close time have called leave()".
    - [enter()]: "if the gate is OPEN, increments the in-flight counter and
      admits the call; if CLOSED, fails immediately";
    - [leave()]: "decrements the in-flight counter; if a close operation is
      pending and the counter reaches zero, the close completes and
      releases any waiter". *)
Definition gate_step (g : gate_t) (e : gate_event)
  : option (gate_response * gate_t) :=
  match e with
  | Gate_enter =>
      if is_open g
      then Some (Enter_ok, {| is_open := is_open g; in_flight := S (in_flight g);
                              close_pending := close_pending g |})
      else Some (Enter_refused, g)
  | Gate_leave =>
      match in_flight g with
      | O => None
      | S n => Some (Step_done, {| is_open := is_open g; in_flight := n;
                              close_pending :=
                                match n with
                                | O => false
                                | S _ => close_pending g
                                end |})
      end
  | Gate_open =>
      if is_open g || close_pending g then None
      else Some (Step_done, {| is_open := true; in_flight := in_flight g;
                          close_pending := false |})
  | Gate_close =>
      if is_open g
      then Some (Step_done, {| is_open := false; in_flight := in_flight g;
                          close_pending :=
                            match in_flight g with
                            | O => false
                            | S _ => true
                            end |})
      else None
  | Gate_closed =>
      if is_open g || close_pending g then None else Some (Step_done, g)
  end.

(** Modelled from the spec: an interleaving of gate operations (the gate is
    not under [src/]): the responses in order and the final state, [None]
    when some event cannot happen where the list puts it. *)
Fixpoint gate_run (g : gate_t) (es : list gate_event)
  : option (list gate_response * gate_t) :=
  match es with
  | [] => Some ([], g)
  | e :: rest =>
      match gate_step g e with
      | None => None
      | Some (r, g1) =>
          match gate_run g1 rest with
          | None => None
          | Some (rs, g2) => Some (r :: rs, g2)
          end
      end
  end.

(** Number of admitted [enter()] calls among responses, and of [leave()]
    calls among events. *)
Definition is_enter_ok (r : gate_response) : bool :=
  match r with Enter_ok => true | _ => false end.
Definition is_leave (e : gate_event) : bool :=
  match e with Gate_leave => true | _ => false end.
Definition count_entered (rs : list gate_response) : nat :=
  List.length (filter is_enter_ok rs).
Definition count_leaves (es : list gate_event) : nat :=
  List.length (filter is_leave es).

(** ** server.cc: server_shutdown *)

Section Shutdown.

(** The thread pool and its message passing are outside [src/]: the
    messages, the state of the message queues and the two calls that
    hand a message over are parameters. *)
Variable thread_message_t : Type.
Variable queues_t : Type.
Variable get_num_threads : queues_t -> Z.
Variable continue_on_thread : Z -> thread_message_t -> queues_t -> bool * queues_t.
Variable call_later_on_this_thread : thread_message_t -> queues_t -> queues_t.

Record thread_pool_t : Type := {
  interrupt_message : option thread_message_t;   (* [None] is NULL *)
  queues : queues_t
}.

(** Modelled from the spec: [thread_pool_t::set_interrupt_message] is not
    under [src/].  It installs the new interrupt message and returns the
    one it replaces: after a shutdown request "the interrupt message has
    already been taken and set to NULL" ("If the interrupt message already
    was NULL, that means that [...] shutdown() was called twice and this
    is the second time", [server_shutdown]). *)
Definition set_interrupt_message (msg : option thread_message_t)
    (p : thread_pool_t) : option thread_message_t * thread_pool_t :=
  (interrupt_message p, {| interrupt_message := msg; queues := queues p |}).

Definition server_shutdown (p : thread_pool_t) : thread_pool_t :=
  let (old_interrupt_msg, p1) := set_interrupt_message None p in
  match old_interrupt_msg with
  | Some msg =>
      let (here, q) :=
        continue_on_thread (get_num_threads (queues p1) - 1) msg (queues p1) in
      {| interrupt_message := interrupt_message p1;
         queues := if here then call_later_on_this_thread msg q else q |}
  | None => p1
  end.

(** [n] shutdown requests in a row. *)
Fixpoint shutdown_requests (n : nat) (p : thread_pool_t) : thread_pool_t :=
  match n with
  | O => p
  | S n' => shutdown_requests n' (server_shutdown p)
  end.

End Shutdown.

(** ** server.cc: server_main

    [server_main] acts on the command-line configuration (which it
    updates), the file system, the store and the network.  The machine
    below holds what the function reads and writes of them, and a trace of
    the actions it performs on its collaborators, oldest first. *)

(** The fields of [cmd_config_t] that [server_main] reads. *)
Record cmd_config_t : Type := {
  db_filenames : list string;   (* store_dynamic_config.serializer_private[i].db_filename *)
  create_store : bool;
  force_create : bool;
  shutdown_after_creation : bool;
  import_files : list string;   (* import_config.file *)
  replication_active : bool;    (* replication_config.active *)
  replication_master_active : bool;
  force_unslavify : bool;
  failover_script_path : string;
  port : Z
}.

Definition with_create_store (cfg : cmd_config_t) (b : bool) : cmd_config_t :=
  {| db_filenames := db_filenames cfg;
     create_store := b;
     force_create := force_create cfg;
     shutdown_after_creation := shutdown_after_creation cfg;
     import_files := import_files cfg;
     replication_active := replication_active cfg;
     replication_master_active := replication_master_active cfg;
     force_unslavify := force_unslavify cfg;
     failover_script_path := failover_script_path cfg;
     port := port cfg |}.

(** The three calls of [fail_due_to_user_error], by their message. *)
Inductive user_error : Type :=
| Overwrite_existing_file      (* "You are attempting to overwrite an existing file ..." *)
| Was_slave_now_master         (* "This data file used to be for a replication slave. If this data file is used for a replication master ..." *)
| Was_slave_now_standalone.    (* "... If this data file is used for a standalone server ..." *)

(** Actions on the collaborators of [server_main]. *)
Inductive action : Type :=
| Log_disk_info
| Create_store                       (* btree_key_value_store_t::create *)
| Create_metadata_store              (* btree_metadata_store_t::create *)
| Open_metadata_store
| Open_store
| Set_replication_master_id (id : Z)
| Import_memcache (file : string)
| Listen (on_port : Z)               (* memcache_listener_t constructed *)
| Add_failover_script (path : string)
| Add_query_enabler
| Run_slave
| Run_master
| Open_gets                          (* gated_get_store_t::open_t constructed *)
| Open_sets                          (* gated_set_store_interface_t::open_t constructed *)
| Wait_for_sigint
| Close_sets                         (* ~open_t *)
| Close_gets
| Stop_listening
| Stop_master
| Stop_slave
| Remove_query_enabler
| Close_store
| Close_metadata_store
| Log_address_in_use
| Shutdown_thread_pool.

Record machine : Type := {
  config : cmd_config_t;
  file_exists : string -> bool;       (* access(path, F_OK) == 0 *)
  replication_master_id : Z;          (* the role marker kept in the store *)
  port_in_use : bool;                 (* the listener cannot bind its port *)
  trace : list action
}.

(** How a computation ends: normally, by the exception
    [tcp_listener_t::address_in_use_exc_t], or by [fail_due_to_user_error],
    which reports the error and ends the process. *)
Inductive outcome (A : Type) : Type :=
| Ok (a : A)
| Throw_address_in_use
| Exit_user_error (e : user_error).

Arguments Ok {A} a.
Arguments Throw_address_in_use {A}.
Arguments Exit_user_error {A} e.

Definition M (A : Type) : Type := machine -> outcome A * machine.

Definition ret {A : Type} (a : A) : M A := fun m => (Ok a, m).

Definition bind {A B : Type} (c : M A) (k : A -> M B) : M B :=
  fun m =>
    match c m with
    | (Ok a, m1) => k a m1
    | (Throw_address_in_use, m1) => (Throw_address_in_use, m1)
    | (Exit_user_error e, m1) => (Exit_user_error e, m1)
    end.

Declare Scope server_scope.
Delimit Scope server_scope with server.
Notation "x <- c ;; k" := (bind c (fun x => k))
  (at level 61, c at next level, right associativity) : server_scope.
Notation "c ;; k" := (bind c (fun _ => k))
  (at level 61, right associativity) : server_scope.

Local Open Scope server_scope.

Definition get_config : M cmd_config_t := fun m => (Ok (config m), m).

Definition set_config (cfg : cmd_config_t) : M unit :=
  fun m => (Ok tt, {| config := cfg; file_exists := file_exists m;
                      replication_master_id := replication_master_id m;
                      port_in_use := port_in_use m; trace := trace m |}).

Definition perform (a : action) : M unit :=
  fun m => (Ok tt, {| config := config m; file_exists := file_exists m;
                      replication_master_id := replication_master_id m;
                      port_in_use := port_in_use m; trace := trace m ++ [a] |}).

Definition when (b : bool) (c : M unit) : M unit := if b then c else ret tt.

Definition fail_due_to_user_error (e : user_error) : M unit :=
  fun m => (Exit_user_error e, m).

(** [access(path, F_OK) == 0] *)
Definition access_ok (path : string) : M bool :=
  fun m => (Ok (file_exists m path), m).

(** The loop over [db_filenames] that computes [any_exist] and
    [any_dontexist]. *)
Fixpoint check_files (names : list string) (any_exist any_dontexist : bool)
  : M (bool * bool) :=
  match names with
  | [] => ret (any_exist, any_dontexist)
  | name :: rest =>
      found <- access_ok name ;;
      if found
      then check_files rest (any_exist || true) any_dontexist
      else check_files rest any_exist (any_dontexist || true)
  end.

(** [store.get_replication_master_id(&replication_seq_group)] *)
Definition get_replication_master_id : M Z :=
  fun m => (Ok (replication_master_id m), m).

(** [store.set_replication_master_id(&seq_group, id)] *)
Definition set_replication_master_id (id : Z) : M unit :=
  fun m => (Ok tt, {| config := config m; file_exists := file_exists m;
                      replication_master_id := id;
                      port_in_use := port_in_use m;
                      trace := trace m ++ [Set_replication_master_id id] |}).

(** Construction of a [memcache_listener_t]: throws when the port is taken. *)
Definition listen (on_port : Z) : M unit :=
  fun m => if port_in_use m then (Throw_address_in_use, m)
           else perform (Listen on_port) m.

Definition wait_for_sigint : M unit := perform Wait_for_sigint.

(** An object with a destructor: [body] runs after the constructor; the
    destructor runs when [body] ends normally or by an exception (stack
    unwinding), not when the process exits. *)
Definition scoped {A : Type} (ctor : M unit) (dtor : action) (body : M A) : M A :=
  fun m =>
    match ctor m with
    | (Ok _, m1) =>
        match body m1 with
        | (Ok a, m2) => (Ok a, snd (perform dtor m2))
        | (Throw_address_in_use, m2) => (Throw_address_in_use, snd (perform dtor m2))
        | (Exit_user_error e, m2) => (Exit_user_error e, m2)
        end
    | (Throw_address_in_use, m1) => (Throw_address_in_use, m1)
    | (Exit_user_error e, m1) => (Exit_user_error e, m1)
    end.

(** [try { body } catch (tcp_listener_t::address_in_use_exc_t&) { logERR }] *)
Definition catch_address_in_use (body : M unit) : M unit :=
  fun m =>
    match body m with
    | (Throw_address_in_use, m1) => perform Log_address_in_use m1
    | r => r
    end.

Fixpoint import_all (files : list string) : M unit :=
  match files with
  | [] => ret tt
  | file :: rest => perform (Import_memcache file) ;; import_all rest
  end.

Definition is_empty {A : Type} (l : list A) : bool :=
  match l with [] => true | _ => false end.

Section ServerMain.

(** [NOT_A_SLAVE] is a macro defined outside [src/]. *)
Variable NOT_A_SLAVE : Z.

(** [btree_key_value_store_t::create] is outside [src/]: the role marker
    of a newly created store is a parameter. *)
Variable created_replication_master_id : Z.

(** The guard shared by the master and the standalone branch:
    [replication_master_id != 0 && replication_master_id != NOT_A_SLAVE
     && !cmd_config->force_unslavify]. *)
Definition was_slave (replication_master_id : Z) (cfg : cmd_config_t) : bool :=
  negb (replication_master_id =? 0)
  && negb (replication_master_id =? NOT_A_SLAVE)
  && negb (force_unslavify cfg).

Definition create_stores : M unit :=
  perform Create_store ;;
  (fun m => (Ok tt, {| config := config m; file_exists := file_exists m;
                       replication_master_id := created_replication_master_id;
                       port_in_use := port_in_use m; trace := trace m |})) ;;
  perform Create_metadata_store.

Definition import_branch (cfg : cmd_config_t) : M unit :=
  set_replication_master_id NOT_A_SLAVE ;;
  import_all (import_files cfg).

Definition slave_branch (cfg : cmd_config_t) : M unit :=
  scoped (listen (port cfg)) Stop_listening (
    when (negb (is_empty (list_ascii_of_string (failover_script_path cfg))))
         (perform (Add_failover_script (failover_script_path cfg))) ;;
    scoped (perform Add_query_enabler) Remove_query_enabler (
      scoped (perform Run_slave) Stop_slave wait_for_sigint)).

Definition master_branch (cfg : cmd_config_t) : M unit :=
  scoped (listen (port cfg)) Stop_listening (
    id <- get_replication_master_id ;;
    when (was_slave id cfg) (fail_due_to_user_error Was_slave_now_master) ;;
    set_replication_master_id NOT_A_SLAVE ;;
    scoped (perform Run_master) Stop_master wait_for_sigint).

(** The trace has no action for [store_manager], which this branch
    allocates on entry and deletes after [wait_for_sigint] returns (it is
    handed to no one: the servers that took it are commented out). *)
Definition standalone_branch (cfg : cmd_config_t) : M unit :=
  id <- get_replication_master_id ;;
  when (was_slave id cfg) (fail_due_to_user_error Was_slave_now_standalone) ;;
  set_replication_master_id NOT_A_SLAVE ;;
  scoped (perform Open_gets) Close_gets (
    scoped (perform Open_sets) Close_sets (
      scoped (listen (port cfg)) Stop_listening wait_for_sigint)).

(** "Check for overwrite conditions or auto-create": computes
    [any_exist] and [any_dontexist], turns [create_store] on when some
    file is missing, and refuses to overwrite.  Returns the flag
    [create_store] as it stands afterwards. *)
Definition check_overwrite : M bool :=
  cfg0 <- get_config ;;
  flags <- check_files (db_filenames cfg0) false false ;;
  let (any_exist, any_dontexist) := flags : bool * bool in
  set_config (with_create_store cfg0 (create_store cfg0 || any_dontexist)) ;;
  cfg <- get_config ;;
  when (any_exist && create_store cfg && negb (force_create cfg))
       (fail_due_to_user_error Overwrite_existing_file) ;;
  ret (create_store cfg).

(** "Start key-value store" and what follows it, down to the end of the
    [if (!cmd_config->shutdown_after_creation)]. *)
Definition run_store (cfg : cmd_config_t) : M unit :=
  scoped (perform Open_metadata_store) Close_metadata_store (
    scoped (perform Open_store) Close_store (
      if negb (is_empty (import_files cfg)) then import_branch cfg
      else if replication_active cfg then slave_branch cfg
      else if replication_master_active cfg then master_branch cfg
      else standalone_branch cfg)).

(** The body of the [try] block. *)
Definition server_main_body : M unit :=
  create <- check_overwrite ;;
  perform Log_disk_info ;;
  when create create_stores ;;
  cfg <- get_config ;;
  if negb (shutdown_after_creation cfg) then run_store cfg else ret tt.

Definition server_main : M unit :=
  catch_address_in_use server_main_body ;;
  perform Shutdown_thread_pool.

(** A machine about to run [server_main]. *)
Definition boot (cfg : cmd_config_t) (files : string -> bool)
    (marker : Z) (port_taken : bool) : machine :=
  {| config := cfg; file_exists := files; replication_master_id := marker;
     port_in_use := port_taken; trace := [] |}.

End ServerMain.

Local Close Scope server_scope.

(** A computation that only adds to the trace, leaves the configuration
    alone and does not raise the overwrite error. *)
Definition appends_only {A : Type} (c : M A) : Prop :=
  forall (m m' : machine) (o : outcome A),
    c m = (o, m') ->
    (exists added, trace m' = trace m ++ added)
    /\ config m' = config m
    /\ o <> Exit_user_error Overwrite_existing_file.

(** ** store.hpp: buffer groups

    [buffer_group_t] and [const_buffer_group_t] have the same members and
    the same code; they differ in the constness of [data].  A pointer is
    the address it holds. *)

(** Conversion to [ssize_t] (64 bits, two's complement), as in
    [b.size = s]. *)
Definition to_int64 (x : Z) : Z := (x + 2 ^ 63) mod 2 ^ 64 - 2 ^ 63.

Record buffer_t : Type := {
  buf_size : Z;              (* ssize_t *)
  buf_data : Z               (* void * *)
}.

(** The one member, [std::vector<buffer_t> buffers]. *)
Definition buffer_group_t : Type := list buffer_t.

(** [add_buffer(size_t s, void *d)]: [b.size = s; b.data = d;
    buffers.push_back(b)]. *)
Definition add_buffer (s d : Z) (g : buffer_group_t) : buffer_group_t :=
  g ++ [{| buf_size := to_int64 s; buf_data := d |}].

(** The loop [for (int i = ...; i < n; i++) s += buffers[i].size], [rest]
    being the buffers from index [i] on; [s] is a [size_t]. *)
Fixpoint get_size_from (rest : list buffer_t) (i n s : Z) : Z :=
  match rest with
  | [] => s
  | b :: rest' =>
      if i <? n then get_size_from rest' (i + 1) n (to_uint64 (s + buf_size b))
      else s
  end.

(** [get_size]: the loop from 0 to [(int)buffers.size()]. *)
Definition get_size (g : buffer_group_t) : Z :=
  get_size_from g 0 (to_int (Z.of_nat (List.length g))) 0.

(** The group that a sequence of [add_buffer(s, d)] calls builds. *)
Definition add_buffers (calls : list (Z * Z)) (g : buffer_group_t)
  : buffer_group_t :=
  fold_left (fun g' call => add_buffer (fst call) (snd call) g') calls g.

(** ** Histories of the timestamping layer *)

(** Number of [make_castime] calls of a history, and the largest [time]
    among a starting value and the arguments of its [set_timestamp]
    calls. *)
Fixpoint count_make_castime (calls : list call) : nat :=
  match calls with
  | [] => 0
  | Call_make_castime :: rest => S (count_make_castime rest)
  | Call_set_timestamp _ :: rest => count_make_castime rest
  end.

Fixpoint latest_time (calls : list call) (t : Z) : Z :=
  match calls with
  | [] => t
  | Call_make_castime :: rest => latest_time rest t
  | Call_set_timestamp ts :: rest => latest_time rest (Z.max t (time ts))
  end.

(** The [time]s a history stores are [uint32_t] values. *)
Definition time_fits (ts : repli_timestamp_t) : Prop := 0 <= time ts < 2 ^ 32.

Definition times_fit (calls : list call) : Prop :=
  Forall (fun c => match c with
                   | Call_make_castime => True
                   | Call_set_timestamp ts => time_fits ts
                   end) calls.

Section ChangeHistories.

Context {T : external_types}.
Variable counter_bits : Z.
Context {K : Type} {Target : set_store_t K}.

(** A sequence of [change] calls through the timestamping layer. *)
Fixpoint ts_changes
    (reqs : list (sequence_group_t * mutation_t * order_token_t))
    (st : timestamping_t * K)
  : list mutation_result_t * (timestamping_t * K) :=
  match reqs with
  | [] => ([], st)
  | (seq_group, mutation, token) :: rest =>
      let (r, st1) := ts_change counter_bits seq_group mutation token st in
      let (rs, st2) := ts_changes rest st1 in
      (r :: rs, st2)
  end.

(** A sequence of [change] calls on the sink, each with its castime. *)
Fixpoint sink_changes
    (reqs : list ((sequence_group_t * mutation_t * order_token_t) * castime_t))
    (k : K) : list mutation_result_t * K :=
  match reqs with
  | [] => ([], k)
  | ((seq_group, mutation, token), ct) :: rest =>
      let (r, k1) := change_castime seq_group mutation ct token k in
      let (rs, k2) := sink_changes rest k1 in
      (r :: rs, k2)
  end.

End ChangeHistories.

(** ** server.cc: the trial-period check ([#ifdef TIMEBOMB_DAYS]) *)

Definition seconds_in_an_hour : Z := 3600.
Definition seconds_in_a_day : Z := seconds_in_an_hour * 24.
Definition timebomb_check_period_in_sec : Z := seconds_in_an_hour * 12.

(** What one call of [periodic_checker_t::check] does: nothing (checking
    was cancelled), [server_shutdown()], or [fire_timer_once] with a delay
    in milliseconds. *)
Inductive check_result : Type :=
| Check_cancelled
| Check_exploded
| Check_scheduled (ms : Z).

Section Timebomb.

(** [TIMEBOMB_DAYS] is a macro that the build defines. *)
Variable TIMEBOMB_DAYS : Z.

(** [check], given [no_more_checking], the creation timestamp and
    [time(NULL)].  [difftime] and the products with [double(TIMEBOMB_DAYS)]
    are doubles that hold integers; below [2^53] in magnitude these are
    exact, [ceil] leaves them as they are, and the comparisons and
    differences are those of the integers.  [days_left] only words the
    log line and is left out. *)
Definition check (no_more_checking : bool) (creation_timestamp time_now : Z)
  : check_result :=
  if negb no_more_checking then
    let seconds_since_created := time_now - creation_timestamp in
    let exploded :=
      if seconds_since_created <? 0 then true
      else if seconds_since_created >? TIMEBOMB_DAYS * seconds_in_a_day then true
      else false in
    if exploded then Check_exploded
    else
      let seconds_left :=
        TIMEBOMB_DAYS * seconds_in_a_day - seconds_since_created + 1 in
      let seconds_till_check :=
        if seconds_left <? timebomb_check_period_in_sec
        then seconds_left else timebomb_check_period_in_sec in
      Check_scheduled (seconds_till_check * 1000)
  else Check_cancelled.

(** The chain of checks that the timer drives, each one running when its
    delay has passed: the time, in seconds since creation, at which the
    chain reaches [server_shutdown()]; [None] when [fuel] checks did not
    get there or the chain stopped. *)
Fixpoint explodes_at (fuel : nat) (creation_timestamp time_now : Z) : option Z :=
  match fuel with
  | O => None
  | S fuel' =>
      match check false creation_timestamp time_now with
      | Check_cancelled => None
      | Check_exploded => Some (time_now - creation_timestamp)
      | Check_scheduled ms =>
          explodes_at fuel' creation_timestamp (time_now + ms / 1000)
      end
  end.

End Timebomb.

(** ** Sample inputs *)

(** [NOT_A_SLAVE] as [uint32_t(-1)], and 0 for the marker of a new store. *)
Definition sample_NOT_A_SLAVE : Z := 4294967295.
Definition sample_created_id : Z := 0.

(** A configuration with one data file, started as a master or as a
    standalone server. *)
Definition sample_config (master force : bool) : cmd_config_t :=
  {| db_filenames := ["rethinkdb_data"%string];
     create_store := false;
     force_create := false;
     shutdown_after_creation := false;
     import_files := [];
     replication_active := false;
     replication_master_active := master;
     force_unslavify := force;
     failover_script_path := EmptyString;
     port := 11211 |}.

(** The same with creation requested. *)
Definition sample_config_create : cmd_config_t :=
  with_create_store (sample_config false false) true.

(** An interleaving on a gate: two operations are admitted, the scope
    exits, a third operation knocks, the two leave, the exit returns. *)
Definition sample_gate_events : list gate_event :=
  [Gate_open; Gate_enter; Gate_enter; Gate_close; Gate_enter;
   Gate_leave; Gate_leave; Gate_closed].

Definition sample_gate_responses : list gate_response :=
  [Step_done; Enter_ok; Enter_ok; Step_done; Enter_refused; Step_done; Step_done; Step_done].

(** A thread pool whose queues are the list of messages handed over, each
    with the thread it went to, on a pool of four threads where the caller
    is never on the last one. *)
Definition sample_continue_on_thread (thread : Z) (msg : nat)
    (q : list (Z * nat)) : bool * list (Z * nat) :=
  (false, q ++ [(thread, msg)]).

Definition sample_call_later (msg : nat) (q : list (Z * nat)) : list (Z * nat) :=
  q ++ [(0, msg)].

Definition sample_pool : thread_pool_t nat (list (Z * nat)) :=
  {| interrupt_message := Some 7%nat; queues := [] |}.

Definition sample_shutdown : thread_pool_t nat (list (Z * nat))
                             -> thread_pool_t nat (list (Z * nat)) :=
  server_shutdown nat (list (Z * nat)) (fun _ => 4)
                  sample_continue_on_thread sample_call_later.

(** A key buffer with room for 250 bytes. *)
Definition sample_buffer : store_key_t :=
  {| size := 0; contents := repeat zero 250 |}.

(** Configurations for the other modes: creation only, import, slave. *)
Definition sample_config_mode (shutdown slave : bool) (imports : list string)
  : cmd_config_t :=
  {| db_filenames := ["rethinkdb_data"%string];
     create_store := false;
     force_create := false;
     shutdown_after_creation := shutdown;
     import_files := imports;
     replication_active := slave;
     replication_master_active := true;
     force_unslavify := false;
     failover_script_path := "failover.sh"%string;
     port := 11211 |}.

(* ================================================================== *)
(** * Part II.  Properties                                             *)
(* ================================================================== *)

(** ** Arithmetic of wrap-around *)

Lemma pow2_pos (n : Z) : 0 <= n -> 0 < 2 ^ n.
Proof. intros. apply Z.pow_pos_nonneg; lia. Qed.

Lemma mod_mod_pow2 (a m n : Z) :
  0 <= m <= n -> (a mod 2 ^ n) mod 2 ^ m = a mod 2 ^ m.
Proof.
  intros Hmn. apply Z.mod_mod_divide.
  exists (2 ^ (n - m)). rewrite <- Z.pow_add_r by lia. f_equal. lia.
Qed.

Lemma wrap_wrap_add (w a b : Z) : wrap w (wrap w a + b) = wrap w (a + b).
Proof. unfold wrap. apply Zplus_mod_idemp_l. Qed.

Lemma add_wrap_low (a b m w : Z) :
  0 <= m <= w -> (a mod 2 ^ w + b) mod 2 ^ m = (a + b) mod 2 ^ m.
Proof.
  intros Hmw.
  rewrite (Zplus_mod (a mod 2 ^ w)), mod_mod_pow2 by lia.
  rewrite <- Zplus_mod. reflexivity.
Qed.

(** The low [m <= 32] bits of a cas are the low bits of the counter. *)
Lemma cas_of_low_bits (ts : repli_timestamp_t) (c m : Z) :
  0 <= m <= 32 -> cas_of ts c mod 2 ^ m = c mod 2 ^ m.
Proof.
  intros Hm. unfold cas_of, to_uint64, wrap.
  rewrite <- (mod_mod_pow2 c m 64) by lia.
  set (hi := Z.shiftl (time ts mod 2 ^ 64) 32 mod 2 ^ 64).
  set (lo := c mod 2 ^ 64).
  apply Z.bits_inj'. intros n Hn.
  destruct (Z.lt_ge_cases n m) as [Hlt | Hge].
  - rewrite !Z.mod_pow2_bits_low by lia.
    rewrite Z.lxor_spec.
    replace (Z.testbit hi n) with false; [reflexivity|].
    unfold hi. rewrite Z.mod_pow2_bits_low by lia.
    symmetry. apply Z.shiftl_spec_low. lia.
  - rewrite !Z.mod_pow2_bits_high by lia. reflexivity.
Qed.

(** ** Timestamping layer *)

Section TimestampingProps.

Variable counter_bits : Z.
Hypothesis counter_bits_range : 0 < counter_bits <= 64.

Local Abbreviation m := (Z.min counter_bits 32).

Lemma make_castime_low_bits (s : timestamping_t) :
  castime_cas (fst (make_castime counter_bits s)) mod 2 ^ m
  = (cas_counter s + 1) mod 2 ^ m.
Proof.
  unfold make_castime; simpl.
  rewrite cas_of_low_bits by lia.
  unfold wrap. apply mod_mod_pow2. lia.
Qed.

Lemma make_castime_counter (s : timestamping_t) :
  cas_counter (snd (make_castime counter_bits s))
  = wrap counter_bits (cas_counter s + 1).
Proof. reflexivity. Qed.

(** The [k]-th castime returned by a history carries, in its low bits,
    the counter of the instance advanced [k+1] times. *)
Lemma run_nth_low_bits (calls : list call) :
  forall (s : timestamping_t) (k : nat) (ct : castime_t),
    nth_error (fst (run counter_bits calls s)) k = Some ct ->
    castime_cas ct mod 2 ^ m = (cas_counter s + Z.of_nat k + 1) mod 2 ^ m.
Proof.
  induction calls as [|c rest IH]; intros s k ct Hk.
  - destruct k; discriminate.
  - destruct c as [|ts]; cbn [run] in Hk.
    + destruct (make_castime counter_bits s) as [ct0 s1] eqn:Hmk.
      destruct (run counter_bits rest s1) as [cts s2] eqn:Hrun.
      destruct k as [|k]; cbn in Hk.
      * injection Hk as <-.
        change ct0 with (fst (ct0, s1)). rewrite <- Hmk.
        rewrite make_castime_low_bits. f_equal. lia.
      * replace cts with (fst (run counter_bits rest s1)) in Hk
          by (rewrite Hrun; reflexivity).
        apply IH in Hk. rewrite Hk.
        replace s1 with (snd (make_castime counter_bits s))
          by (rewrite Hmk; reflexivity).
        rewrite make_castime_counter. unfold wrap.
        rewrite <- Z.add_assoc, add_wrap_low by lia.
        f_equal. lia.
    + apply IH in Hk. exact Hk.
Qed.

(** A history made of [make_castime] calls only: the [k]-th call returns
    the stored timestamp and the counter advanced [k+1] times. *)
Lemma run_repeat_nth (n : nat) :
  forall (s : timestamping_t) (k : nat),
    (k < n)%nat ->
    nth_error (fst (run counter_bits (repeat Call_make_castime n) s)) k
    = Some {| castime_cas :=
                cas_of (timestamp s)
                       (wrap counter_bits (cas_counter s + Z.of_nat k + 1));
              castime_timestamp := timestamp s |}.
Proof.
  induction n as [|n IH]; intros s k Hk; [lia|].
  cbn [repeat run]. unfold make_castime at 1.
  destruct (run counter_bits (repeat Call_make_castime n) _) as [cts s2] eqn:Hrun.
  destruct k as [|k]; cbn [fst nth_error].
  - replace (cas_counter s + Z.of_nat 0 + 1) with (cas_counter s + 1) by lia.
    reflexivity.
  - replace cts with (fst (run counter_bits (repeat Call_make_castime n)
                             {| cas_counter := wrap counter_bits (cas_counter s + 1);
                                timestamp := timestamp s |}))
      by (rewrite Hrun; reflexivity).
    rewrite IH by lia. cbn [cas_counter timestamp].
    rewrite <- Z.add_assoc, wrap_wrap_add.
    replace (cas_counter s + 1 + (Z.of_nat k + 1))
      with (cas_counter s + Z.of_nat (S k) + 1) by lia.
    reflexivity.
Qed.

(** Calls [2 ^ counter_bits] invocations apart, with the timestamp
    unchanged in between, return the same cas. *)
Lemma make_castime_wraps (s : timestamping_t) :
  let cs := map castime_cas
              (fst (run counter_bits
                      (repeat Call_make_castime (Z.to_nat (2 ^ counter_bits + 1))) s)) in
  let c := cas_of (timestamp s) (wrap counter_bits (cas_counter s + 1)) in
  nth_error cs 0 = Some c /\ nth_error cs (Z.to_nat (2 ^ counter_bits)) = Some c.
Proof.
  intros cs c. subst cs c.
  pose proof (pow2_pos counter_bits ltac:(lia)) as Hpos.
  rewrite !nth_error_map, !run_repeat_nth by lia.
  cbn [option_map castime_cas]. split.
  - replace (cas_counter s + Z.of_nat 0 + 1) with (cas_counter s + 1) by lia.
    reflexivity.
  - rewrite Z2Nat.id by lia. do 2 f_equal. unfold wrap.
    replace (cas_counter s + 2 ^ counter_bits + 1)
      with (cas_counter s + 1 + 1 * 2 ^ counter_bits) by lia.
    apply Z_mod_plus_full.
Qed.

Lemma std_max_time (a b : repli_timestamp_t) :
  time (std_max a b) = Z.max (time a) (time b).
Proof.
  unfold std_max, repli_lt. destruct (Z.ltb_spec (time a) (time b)); lia.
Qed.

(** The stored timestamp never decreases along a history. *)
Lemma run_timestamp_mono (calls : list call) :
  forall s : timestamping_t,
    time (timestamp s) <= time (timestamp (snd (run counter_bits calls s))).
Proof.
  induction calls as [|c rest IH]; intros s; [cbn; lia|].
  destruct c as [|ts]; cbn [run].
  - unfold make_castime at 1.
    specialize (IH {| cas_counter := wrap counter_bits (cas_counter s + 1);
                      timestamp := timestamp s |}).
    destruct (run counter_bits rest _) as [cts s2]. exact IH.
  - specialize (IH (set_timestamp ts s)).
    pose proof (std_max_time (timestamp s) ts) as Hmax.
    change (std_max (timestamp s) ts)
      with (timestamp (set_timestamp ts s)) in Hmax.
    lia.
Qed.

(** The stored timestamp bounds from below every castime returned
    afterwards. *)
Lemma run_timestamps_ge (calls : list call) :
  forall (s : timestamping_t) (t : Z),
    t <= time (timestamp s) ->
    Forall (fun ct => t <= time (castime_timestamp ct))
           (fst (run counter_bits calls s)).
Proof.
  induction calls as [|c rest IH]; intros s t Ht; [constructor|].
  destruct c as [|ts]; cbn [run].
  - unfold make_castime at 1.
    destruct (run counter_bits rest _) as [cts s2] eqn:Hrun.
    cbn [fst]. constructor; [exact Ht|].
    replace cts with (fst (run counter_bits rest
                             {| cas_counter := wrap counter_bits (cas_counter s + 1);
                                timestamp := timestamp s |}))
      by (rewrite Hrun; reflexivity).
    apply IH. exact Ht.
  - apply IH. cbn [set_timestamp timestamp]. rewrite std_max_time. lia.
Qed.

Lemma first_cas_is_one : cas_of distant_past (wrap counter_bits 1) = 1.
Proof.
  unfold wrap. rewrite Z.mod_small.
  - reflexivity.
  - split; [lia|]. apply Z.pow_gt_1; lia.
Qed.

(** On a fresh instance, the first call and the call [2 ^ counter_bits]
    invocations later both return the cas 1. *)
Lemma returned_cas_repeats :
  let cs := returned_cas counter_bits
              (repeat Call_make_castime (Z.to_nat (2 ^ counter_bits + 1))) in
  nth_error cs 0 = Some 1
  /\ nth_error cs (Z.to_nat (2 ^ counter_bits)) = Some 1
  /\ ~ NoDup cs.
Proof.
  intros cs.
  destruct (make_castime_wraps timestamping_init) as [H0 Hw].
  change (cas_of (timestamp timestamping_init)
            (wrap counter_bits (cas_counter timestamping_init + 1)))
    with (cas_of distant_past (wrap counter_bits 1)) in H0, Hw.
  rewrite first_cas_is_one in H0, Hw.
  fold (returned_cas counter_bits
          (repeat Call_make_castime (Z.to_nat (2 ^ counter_bits + 1)))) in H0, Hw.
  fold cs in H0, Hw.
  split; [exact H0|]. split; [exact Hw|].
  intros Hnd. rewrite NoDup_nth_error in Hnd.
  pose proof (pow2_pos counter_bits ltac:(lia)) as Hpos.
  assert (Hlt : (0 < List.length cs)%nat)
    by (apply nth_error_Some; rewrite H0; discriminate).
  specialize (Hnd 0%nat (Z.to_nat (2 ^ counter_bits)) Hlt).
  rewrite H0, Hw in Hnd. specialize (Hnd eq_refl). lia.
Qed.

(** C1 (as amended).  Two [make_castime] calls of one instance that are
    fewer than [2 ^ min(counter_bits, 32)] invocations apart return
    distinct cas values, whatever [set_timestamp] calls happen around
    them - in particular when the stored timestamp has not changed. *)
Theorem make_castime_distinct_within_window
    (calls : list call) (s : timestamping_t) (i j : nat) (a b : cas_t) :
  (i < j)%nat ->
  Z.of_nat j - Z.of_nat i < 2 ^ Z.min counter_bits 32 ->
  nth_error (map castime_cas (fst (run counter_bits calls s))) i = Some a ->
  nth_error (map castime_cas (fst (run counter_bits calls s))) j = Some b ->
  a <> b.
Proof.
  intros Hij Hwin Ha Hb Heq.
  rewrite nth_error_map in Ha, Hb.
  destruct (nth_error _ i) as [cti|] eqn:Hi; [|discriminate].
  destruct (nth_error _ j) as [ctj|] eqn:Hj; [|discriminate].
  cbn in Ha, Hb. injection Ha as <-. injection Hb as <-.
  apply run_nth_low_bits in Hi. apply run_nth_low_bits in Hj.
  rewrite Heq, Hj in Hi.
  pose proof (pow2_pos m ltac:(lia)) as Hpos.
  revert Hi Hwin. generalize (2 ^ m) (cas_counter s) Hpos.
  intros M c HM Hi Hwin.
  assert (Hd : (Z.of_nat j - Z.of_nat i) mod M = 0).
  { replace (Z.of_nat j - Z.of_nat i)
      with ((c + Z.of_nat j + 1) - (c + Z.of_nat i + 1)) by lia.
    rewrite Zminus_mod, Hi, Z.sub_diag. apply Z.mod_0_l. lia. }
  rewrite Z.mod_small in Hd by lia. lia.
Qed.

(** C2.  [set_timestamp] stores [max(current, ts)]; called with a [ts]
    below the current stamp it leaves the instance unchanged; and every
    castime returned after [set_timestamp ts], whatever calls follow,
    has a timestamp of at least [ts]. *)
Theorem set_timestamp_monotone (s : timestamping_t) (ts : repli_timestamp_t) :
  time (timestamp (set_timestamp ts s)) = Z.max (time (timestamp s)) (time ts)
  /\ (time ts < time (timestamp s) -> set_timestamp ts s = s)
  /\ (forall calls : list call,
        let (cts, s') := run counter_bits calls (set_timestamp ts s) in
        Forall (fun ct => time ts <= time (castime_timestamp ct)) cts
        /\ time ts <= time (timestamp s')).
Proof.
  split; [apply std_max_time|]. split.
  - intros Hlt. destruct s as [c t]. unfold set_timestamp; cbn in *.
    f_equal. unfold std_max, repli_lt.
    destruct (Z.ltb_spec (time t) (time ts)); [lia|reflexivity].
  - intros calls.
    assert (Hge : time ts <= time (timestamp (set_timestamp ts s)))
      by (cbn [set_timestamp timestamp]; rewrite std_max_time; lia).
    pose proof (run_timestamps_ge calls _ _ Hge) as Hall.
    pose proof (run_timestamp_mono calls (set_timestamp ts s)) as Hmono.
    destruct (run counter_bits calls (set_timestamp ts s)) as [cts s'].
    cbn [fst snd] in *. split; [exact Hall | lia].
Qed.

End TimestampingProps.

(** C1, as stated, fails: whichever unsigned type [cas_counter] has (8, 16,
    32 or 64 bits), a fresh instance on which [make_castime] is called
    [2^w + 1] times returns the cas 1 twice, at the first and at the last
    call. *)
Lemma make_castime_cas_repeats :
  Forall (fun w : Z =>
            let cs := returned_cas w
                        (repeat Call_make_castime (Z.to_nat (2 ^ w + 1))) in
            nth_error cs 0 = Some 1
            /\ nth_error cs (Z.to_nat (2 ^ w)) = Some 1
            /\ ~ NoDup cs)
         [8; 16; 32; 64].
Proof.
  apply Forall_cons; [apply returned_cas_repeats; lia|].
  apply Forall_cons; [apply returned_cas_repeats; lia|].
  apply Forall_cons; [apply returned_cas_repeats; lia|].
  apply Forall_cons; [apply returned_cas_repeats; lia|].
  apply Forall_nil.
Qed.

(** [make_castime_distinct_within_window] at a 32-bit counter: a call, a
    timestamp advance to 7, and a second call. *)
Lemma make_castime_distinct_within_window_witness :
  let calls := [Call_make_castime; Call_set_timestamp {| time := 7 |};
                Call_make_castime] in
  nth_error (returned_cas 32 calls) 0 = Some 1
  /\ nth_error (returned_cas 32 calls) 1 = Some 30064771074
  /\ 1 <> 30064771074.
Proof.
  intros calls. split; [reflexivity|]. split; [reflexivity|].
  apply (make_castime_distinct_within_window 32 ltac:(lia) calls
           timestamping_init 0%nat 1%nat).
  - lia.
  - reflexivity.
  - reflexivity.
  - reflexivity.
Defined.

(** [set_timestamp_monotone] on an instance stamped 9, given 4 and then 12. *)
Lemma set_timestamp_monotone_witness :
  let s := {| cas_counter := 3; timestamp := {| time := 9 |} |} in
  set_timestamp {| time := 4 |} s = s
  /\ time (timestamp (set_timestamp {| time := 12 |} s)) = 12.
Proof.
  intros s. split.
  - apply (proj1 (proj2 (set_timestamp_monotone 32 s {| time := 4 |}))).
    reflexivity.
  - rewrite (proj1 (set_timestamp_monotone 32 s {| time := 12 |})).
    reflexivity.
Defined.

(** ** Mutations and the convenience methods *)

Section MutationProps.

Context {T : external_types}.


(** What the copy of a key keeps is its size: two keys of the same size
    are copied to the same object, whatever bytes lie behind them. *)
Remark copy_key_keeps_size_only (k1 k2 : store_key_t) :
  copy_key k1 = copy_key k2 <-> size k1 = size k2.
Proof.
  unfold copy_key. split; intros H; [injection H as H; exact H | rewrite H; reflexivity].
Qed.

Section ConvenienceProps.

Context {St : Type} {I : set_store_interface_t St}.


End ConvenienceProps.

Section TimestampingChangeProps.

Variable counter_bits : Z.
Context {K : Type} {Target : set_store_t K}.

(** C7.  [change] of the timestamping layer returns what the sink's
    [change] returns for the same sequence group, mutation and token
    and the castime that [make_castime] mints at that moment; the
    layer's own state is the one [make_castime] leaves, the sink's the
    one its [change] leaves. *)
Theorem ts_change_forwards (seq_group : sequence_group_t)
    (mutation : mutation_t) (token : order_token_t)
    (s : timestamping_t) (k : K) :
  let (ct, s') := make_castime counter_bits s in
  let (r, k') := change_castime seq_group mutation ct token k in
  ts_change counter_bits seq_group mutation token (s, k) = (r, (s', k'))
  /\ castime_timestamp ct = timestamp s
  /\ cas_counter s' = wrap counter_bits (cas_counter s + 1)
  /\ castime_cas ct = cas_of (timestamp s) (cas_counter s').
Proof.
  unfold ts_change.
  destruct (make_castime counter_bits s) as [ct s'] eqn:Hmk.
  destruct (change_castime seq_group mutation ct token k) as [r k'].
  unfold make_castime in Hmk. injection Hmk as <- <-.
  repeat split.
Qed.

End TimestampingChangeProps.

End MutationProps.

(** ** Shutdown *)

Section ShutdownProps.

Variable thread_message_t : Type.
Variable queues_t : Type.
Variable get_num_threads : queues_t -> Z.
Variable continue_on_thread : Z -> thread_message_t -> queues_t -> bool * queues_t.
Variable call_later_on_this_thread : thread_message_t -> queues_t -> queues_t.

Local Abbreviation shutdown :=
  (server_shutdown thread_message_t queues_t get_num_threads
                   continue_on_thread call_later_on_this_thread).

Lemma server_shutdown_clears (p : thread_pool_t thread_message_t queues_t) :
  interrupt_message _ _ (shutdown p) = None.
Proof.
  unfold server_shutdown; cbn.
  destruct (interrupt_message _ _ p); [|reflexivity].
  destruct (continue_on_thread _ _ _). reflexivity.
Qed.

Lemma server_shutdown_noop (p : thread_pool_t thread_message_t queues_t) :
  interrupt_message _ _ p = None -> shutdown p = p.
Proof.
  intros Hnone. unfold server_shutdown; cbn.
  rewrite Hnone. destruct p; cbn in *. subst. reflexivity.
Qed.

(** C5.  A shutdown request that finds the interrupt message already
    taken changes nothing: neither the message slot nor the message
    queues.  After any request the message is taken, so a second request
    is such a no-op, and any number of requests in a row does what the
    first one does alone. *)
Theorem server_shutdown_idempotent (p : thread_pool_t thread_message_t queues_t) :
  (interrupt_message _ _ p = None -> shutdown p = p)
  /\ interrupt_message _ _ (shutdown p) = None
  /\ shutdown (shutdown p) = shutdown p
  /\ (forall n : nat,
        shutdown_requests thread_message_t queues_t get_num_threads
          continue_on_thread call_later_on_this_thread (S n) p
        = shutdown p).
Proof.
  split; [apply server_shutdown_noop|].
  split; [apply server_shutdown_clears|].
  split; [apply server_shutdown_noop, server_shutdown_clears|].
  intros n. cbn [shutdown_requests].
  induction n as [|n IH]; [reflexivity|].
  cbn [shutdown_requests].
  rewrite (server_shutdown_noop (shutdown p)) by apply server_shutdown_clears.
  exact IH.
Qed.

End ShutdownProps.

(** [server_shutdown_idempotent] on a pool with an interrupt message: the
    message is handed over once, to the last thread. *)
Lemma server_shutdown_idempotent_witness :
  sample_shutdown (sample_shutdown sample_pool)
  = {| interrupt_message := None; queues := [(3, 7%nat)] |}
  /\ sample_shutdown sample_pool
     = {| interrupt_message := None; queues := [(3, 7%nat)] |}.
Proof.
  unfold sample_shutdown. split.
  - rewrite (proj1 (proj2 (proj2
               (server_shutdown_idempotent nat (list (Z * nat)) (fun _ => 4)
                  sample_continue_on_thread sample_call_later sample_pool)))).
    reflexivity.
  - reflexivity.
Defined.

(** ** The gate *)

(** What holds of a gate in every state it can reach: a pending close means
    a closed gate with operations in flight, and a gate that is closed with
    no close pending has none. *)
Lemma gate_step_invariant (g g' : gate_t) (e : gate_event) (r : gate_response) :
  gate_step g e = Some (r, g') ->
  (close_pending g = true -> is_open g = false /\ in_flight g <> 0%nat) ->
  (is_open g = false -> close_pending g = false -> in_flight g = 0%nat) ->
  (close_pending g' = true -> is_open g' = false /\ in_flight g' <> 0%nat)
  /\ (is_open g' = false -> close_pending g' = false -> in_flight g' = 0%nat).
Proof.
  destruct g as [o n c]. destruct e; cbn; intros Hstep Hp Hc.
  - destruct o; injection Hstep as <- <-; cbn.
    + split; [intros Hc'; destruct (Hp Hc'); discriminate | discriminate].
    + split; assumption.
  - destruct n as [|n]; [discriminate|]. injection Hstep as <- <-; cbn.
    destruct n as [|n].
    + split; [discriminate | reflexivity].
    + split.
      * intros Hc'. destruct (Hp Hc') as [Ho _]. split; [exact Ho | discriminate].
      * intros Ho Hc'. specialize (Hc Ho Hc'). discriminate.
  - destruct o, c; cbn in Hstep; try discriminate.
    injection Hstep as <- <-; cbn. split; discriminate.
  - destruct o; [|discriminate]. injection Hstep as <- <-; cbn.
    destruct n as [|n].
    + split; [discriminate | reflexivity].
    + split; [intros _; split; [reflexivity | discriminate] | discriminate].
  - destruct o, c; cbn in Hstep; try discriminate.
    injection Hstep as <- <-. split; assumption.
Qed.

(** Each step keeps the account: admissions add to the count of
    operations in flight, [leave()] calls take from it. *)
Lemma gate_step_count (g g' : gate_t) (e : gate_event) (r : gate_response) :
  gate_step g e = Some (r, g') ->
  (in_flight g' + (if is_leave e then 1 else 0)
   = in_flight g + (if is_enter_ok r then 1 else 0))%nat.
Proof.
  destruct g as [o n c]. destruct e; cbn; intros Hstep.
  - destruct o; injection Hstep as <- <-; cbn; lia.
  - destruct n as [|n]; [discriminate|]. injection Hstep as <- <-; cbn. lia.
  - destruct (o || c); [discriminate|]. injection Hstep as <- <-; cbn. lia.
  - destruct o; [|discriminate]. injection Hstep as <- <-; cbn. lia.
  - destruct (o || c); [discriminate|]. injection Hstep as <- <-; cbn. lia.
Qed.

Lemma gate_run_cons (g g' : gate_t) (e : gate_event) (es : list gate_event)
    (rs : list gate_response) :
  gate_run g (e :: es) = Some (rs, g') ->
  exists r g1 rs1,
    gate_step g e = Some (r, g1) /\ gate_run g1 es = Some (rs1, g') /\ rs = r :: rs1.
Proof.
  cbn [gate_run]. intros Hrun.
  destruct (gate_step g e) as [[r g1]|]; [|discriminate].
  destruct (gate_run g1 es) as [[rs1 g2]|] eqn:Hrest; [|discriminate].
  injection Hrun as <- <-. exists r, g1, rs1. auto.
Qed.

Lemma gate_run_app (es1 : list gate_event) :
  forall (g g' : gate_t) (es2 : list gate_event) (rs : list gate_response),
    gate_run g (es1 ++ es2) = Some (rs, g') ->
    exists rs1 g1 rs2,
      gate_run g es1 = Some (rs1, g1) /\ gate_run g1 es2 = Some (rs2, g')
      /\ rs = rs1 ++ rs2 /\ List.length rs1 = List.length es1.
Proof.
  induction es1 as [|e es1 IH]; intros g g' es2 rs Hrun.
  - exists [], g, rs. repeat split. exact Hrun.
  - rewrite <- app_comm_cons in Hrun.
    apply gate_run_cons in Hrun as (r & g1 & rs1 & Hstep & Hrest & ->).
    apply IH in Hrest as (ra & g2 & rb & Ha & Hb & -> & Hlen).
    exists (r :: ra), g2, rb. cbn [gate_run]. rewrite Hstep, Ha.
    repeat split; [exact Hb | cbn; lia].
Qed.

Lemma gate_run_invariant (es : list gate_event) :
  forall (g g' : gate_t) (rs : list gate_response),
    gate_run g es = Some (rs, g') ->
    (close_pending g = true -> is_open g = false /\ in_flight g <> 0%nat) ->
    (is_open g = false -> close_pending g = false -> in_flight g = 0%nat) ->
    (close_pending g' = true -> is_open g' = false /\ in_flight g' <> 0%nat)
    /\ (is_open g' = false -> close_pending g' = false -> in_flight g' = 0%nat).
Proof.
  induction es as [|e es IH]; intros g g' rs Hrun Hp Hc.
  - injection Hrun as <- <-. split; assumption.
  - apply gate_run_cons in Hrun as (r & g1 & rs1 & Hstep & Hrest & ->).
    destruct (gate_step_invariant _ _ _ _ Hstep Hp Hc) as [Hp1 Hc1].
    exact (IH _ _ _ Hrest Hp1 Hc1).
Qed.

Lemma gate_run_count (es : list gate_event) :
  forall (g g' : gate_t) (rs : list gate_response),
    gate_run g es = Some (rs, g') ->
    (in_flight g' + count_leaves es = in_flight g + count_entered rs)%nat.
Proof.
  induction es as [|e es IH]; intros g g' rs Hrun.
  - injection Hrun as <- <-. reflexivity.
  - apply gate_run_cons in Hrun as (r & g1 & rs1 & Hstep & Hrest & ->).
    apply gate_step_count in Hstep. apply IH in Hrest.
    unfold count_leaves, count_entered in *. cbn [filter].
    destruct (is_leave e), (is_enter_ok r); cbn [List.length]; lia.
Qed.

(** A closed gate stays closed as long as no [open_scope] is entered. *)
Lemma gate_run_stays_closed (es : list gate_event) :
  forall (g g' : gate_t) (rs : list gate_response),
    gate_run g es = Some (rs, g') ->
    is_open g = false -> ~ In Gate_open es -> is_open g' = false.
Proof.
  induction es as [|e es IH]; intros g g' rs Hrun Hclosed Hno.
  - injection Hrun as <- <-. exact Hclosed.
  - apply gate_run_cons in Hrun as (r & g1 & rs1 & Hstep & Hrest & ->).
    apply (IH _ _ _ Hrest); [|intros Hin; apply Hno; right; exact Hin].
    destruct g as [o n c]. cbn in Hclosed. subst o.
    destruct e; cbn in Hstep.
    + injection Hstep as <- <-. reflexivity.
    + destruct n; [discriminate|]. injection Hstep as <- <-. reflexivity.
    + exfalso. apply Hno. left. reflexivity.
    + discriminate.
    + destruct c; [discriminate|]. injection Hstep as <- <-. reflexivity.
Qed.

(** Every operation in flight can call [leave()], whether the gate is open
    or closed; once they all have, none is in flight and no close is
    pending. *)
Lemma gate_run_drain (n : nat) :
  forall g : gate_t,
    in_flight g = n ->
    exists g' : gate_t,
      gate_run g (repeat Gate_leave n) = Some (repeat Step_done n, g')
      /\ in_flight g' = 0%nat /\ is_open g' = is_open g
      /\ (n <> 0%nat -> close_pending g' = false).
Proof.
  induction n as [|n IH]; intros g Hn.
  - exists g. repeat split; [exact Hn | congruence].
  - destruct g as [o k c]. cbn in Hn. subst k.
    cbn [repeat gate_run gate_step in_flight is_open close_pending].
    destruct (IH {| is_open := o; in_flight := n;
                    close_pending := match n with O => false | S _ => c end |}
                 eq_refl) as (g' & Hrun & Hzero & Hopen & Hpend).
    rewrite Hrun. exists g'. repeat split; [exact Hzero | exact Hopen |].
    intros _. destruct n as [|n]; [|apply Hpend; discriminate].
    cbn in Hrun. injection Hrun as <-. reflexivity.
Qed.

(** C3.  In every interleaving of gate operations, started on a new gate:
    (1) an [enter()] issued while the gate is closed - the gate was closed
    after [pre], and no [open_scope] was entered since - is rejected;
    (2) when the exit of an [open_scope] returns, every operation admitted
    so far has called [leave()];
    (3) closing abandons nothing: all the operations in flight at the end
    of the interleaving can still run to their [leave()], after which none
    is in flight and no close is left waiting. *)
Theorem gate_admission_and_drain
    (es : list gate_event) (rs : list gate_response) (g : gate_t) :
  gate_run gate_init es = Some (rs, g) ->
  (forall pre mid post rs1 g1,
      es = pre ++ mid ++ Gate_enter :: post ->
      gate_run gate_init pre = Some (rs1, g1) ->
      is_open g1 = false ->
      ~ In Gate_open mid ->
      nth_error rs (List.length pre + List.length mid) = Some Enter_refused)
  /\ (forall pre post,
         es = pre ++ Gate_closed :: post ->
         count_entered (firstn (List.length pre) rs) = count_leaves pre)
  /\ (exists g' : gate_t,
         gate_run g (repeat Gate_leave (in_flight g))
         = Some (repeat Step_done (in_flight g), g')
         /\ in_flight g' = 0%nat
         /\ is_open g' = is_open g
         /\ (is_open g = false -> close_pending g' = false)).
Proof.
  intros Hrun. split; [|split].
  - intros pre mid post rs1 g1 -> Hpre Hclosed Hno.
    apply gate_run_app in Hrun as (ra & ga & rb & Ha & Hb & -> & Hla).
    rewrite Hpre in Ha. injection Ha as <- <-.
    apply gate_run_app in Hb as (rm & gm & rc & Hm & Hc & -> & Hlm).
    pose proof (gate_run_stays_closed _ _ _ _ Hm Hclosed Hno) as Hgm.
    apply gate_run_cons in Hc as (r & g2 & rs2 & Hstep & _ & ->).
    cbn in Hstep. rewrite Hgm in Hstep. injection Hstep as <- _.
    rewrite nth_error_app2 by lia.
    rewrite nth_error_app2 by lia.
    replace (List.length pre + List.length mid - List.length rs1
             - List.length rm)%nat with 0%nat by lia.
    reflexivity.
  - intros pre post ->.
    apply gate_run_app in Hrun as (ra & ga & rb & Ha & Hb & -> & Hla).
    apply gate_run_cons in Hb as (r & g2 & rs2 & Hstep & _ & ->).
    rewrite <- Hla, firstn_app, Nat.sub_diag, firstn_all, firstn_O, app_nil_r.
    pose proof (gate_run_count _ _ _ _ Ha) as Hcount.
    destruct (gate_run_invariant _ _ _ _ Ha) as [_ Hzero];
      [discriminate | reflexivity |].
    cbn in Hstep, Hcount.
    destruct (is_open ga) eqn:Ho; [discriminate|].
    destruct (close_pending ga) eqn:Hc; [discriminate|].
    rewrite (Hzero eq_refl eq_refl) in Hcount. lia.
  - destruct (gate_run_drain (in_flight g) g eq_refl)
      as (g' & Hdrain & Hzero & Hopen & Hpend).
    exists g'. repeat split; try assumption.
    intros Hclosed. destruct (in_flight g) as [|n] eqn:Hn.
    + cbn in Hdrain. injection Hdrain as <-.
      destruct (gate_run_invariant _ _ _ _ Hrun) as [Hp _];
        [discriminate | reflexivity |].
      destruct (close_pending g) eqn:Hc; [|reflexivity].
      destruct (Hp eq_refl) as [_ Hne]. congruence.
    + apply Hpend. discriminate.
Qed.

(** [gate_admission_and_drain] on the sample interleaving: the third
    [enter()] is rejected, and the exit returns after two admissions and
    two [leave()] calls. *)
Lemma gate_admission_and_drain_witness :
  gate_run gate_init sample_gate_events
  = Some (sample_gate_responses,
          {| is_open := false; in_flight := 0; close_pending := false |})
  /\ nth_error sample_gate_responses 4 = Some Enter_refused
  /\ count_entered (firstn 7 sample_gate_responses)
     = count_leaves (firstn 7 sample_gate_events).
Proof.
  split; [reflexivity|].
  destruct (gate_admission_and_drain sample_gate_events sample_gate_responses
              {| is_open := false; in_flight := 0; close_pending := false |}
              eq_refl) as (Hreject & Hdrain & _).
  split.
  - apply (Hreject [Gate_open; Gate_enter; Gate_enter; Gate_close] []
                   [Gate_leave; Gate_leave; Gate_closed]
                   [Step_done; Enter_ok; Enter_ok; Step_done]
                   {| is_open := false; in_flight := 2; close_pending := true |}).
    + reflexivity.
    + reflexivity.
    + reflexivity.
    + intros [].
  - apply (Hdrain (firstn 7 sample_gate_events) []). reflexivity.
Defined.

(** ** server_main *)

Lemma import_all_spec (files : list string) :
  forall m : machine,
    import_all files m
    = (Ok tt, {| config := config m; file_exists := file_exists m;
                 replication_master_id := replication_master_id m;
                 port_in_use := port_in_use m;
                 trace := trace m ++ map Import_memcache files |}).
Proof.
  induction files as [|f rest IH]; intros m; cbn [import_all map].
  - unfold ret. rewrite app_nil_r. destruct m; reflexivity.
  - unfold bind, perform. rewrite IH. cbn. rewrite <- app_assoc. reflexivity.
Qed.

Section ServerMainProps.

Variable NOT_A_SLAVE : Z.
Variable created_replication_master_id : Z.

Local Abbreviation main :=
  (server_main NOT_A_SLAVE created_replication_master_id).

Lemma check_files_spec (names : list string) :
  forall (any_exist any_dontexist : bool) (m : machine),
    check_files names any_exist any_dontexist m
    = (Ok (any_exist || existsb (file_exists m) names,
           any_dontexist || existsb (fun f => negb (file_exists m f)) names),
       m).
Proof.
  induction names as [|name rest IH]; intros ae ad m; cbn [check_files existsb].
  - unfold ret. rewrite !orb_false_r. reflexivity.
  - unfold bind, access_ok.
    destruct (file_exists m name) eqn:Hf; rewrite IH, <- !orb_assoc;
      cbn [negb orb]; reflexivity.
Qed.

(** What [check_overwrite] does, in terms of the files that exist. *)
Lemma check_overwrite_spec (m : machine) :
  let cfg := config m in
  let any_exist := existsb (file_exists m) (db_filenames cfg) in
  let any_dontexist :=
    existsb (fun f => negb (file_exists m f)) (db_filenames cfg) in
  let create := create_store cfg || any_dontexist in
  let m1 := {| config := with_create_store cfg create;
               file_exists := file_exists m;
               replication_master_id := replication_master_id m;
               port_in_use := port_in_use m; trace := trace m |} in
  check_overwrite m
  = if any_exist && create && negb (force_create cfg)
    then (Exit_user_error Overwrite_existing_file, m1)
    else (Ok create, m1).
Proof.
  intros cfg any_exist any_dontexist create m1.
  unfold check_overwrite, bind at 1, get_config at 1.
  unfold bind at 1. rewrite check_files_spec. cbn [orb].
  fold cfg any_exist any_dontexist create.
  unfold bind, set_config, get_config, when, fail_due_to_user_error, ret.
  cbn [config with_create_store create_store force_create].
  fold m1. destruct (any_exist && create && negb (force_create cfg)); reflexivity.
Qed.

Lemma all_exist_none_missing (f : string -> bool) (names : list string) :
  forallb f names = true -> existsb (fun x => negb (f x)) names = false.
Proof.
  induction names as [|x rest IH]; cbn; [reflexivity|].
  intros H. apply andb_prop in H as [Hx Hrest].
  rewrite Hx, IH by exact Hrest. reflexivity.
Qed.

Lemma with_create_store_same (cfg : cmd_config_t) :
  with_create_store cfg (create_store cfg) = cfg.
Proof. destruct cfg; reflexivity. Qed.

(** C4 (as amended).  An existing store (no creation requested, every
    configured file present) whose role marker reads as slave, started as
    master or as standalone server (for a master the listener, constructed
    first, must have got its port): without [force_unslavify], [server_main]
    ends in the user error of that branch, the marker is the one it was,
    and the store was opened and nothing else; with [force_unslavify],
    the marker is set to [NOT_A_SLAVE] and the server goes on to serve
    until the interrupt. *)
Theorem role_marker_guard (m : machine) :
  let cfg := config m in
  create_store cfg = false ->
  forallb (file_exists m) (db_filenames cfg) = true ->
  shutdown_after_creation cfg = false ->
  import_files cfg = [] ->
  replication_active cfg = false ->
  replication_master_id m <> 0 ->
  replication_master_id m <> NOT_A_SLAVE ->
  (replication_master_active cfg = true -> port_in_use m = false) ->
  let (o, m') := main m in
  if force_unslavify cfg then
    o = Ok tt
    /\ replication_master_id m' = NOT_A_SLAVE
    /\ In (Set_replication_master_id NOT_A_SLAVE) (trace m')
    /\ (port_in_use m = false -> In Wait_for_sigint (trace m'))
  else
    o = Exit_user_error (if replication_master_active cfg
                         then Was_slave_now_master
                         else Was_slave_now_standalone)
    /\ replication_master_id m' = replication_master_id m
    /\ trace m' = trace m ++ [Log_disk_info; Open_metadata_store; Open_store]
                          ++ (if replication_master_active cfg
                              then [Listen (port cfg)] else []).
Proof.
  destruct m as [[names cs fc sac imp ra rma fu fsp prt] fe mid piu tr].
  cbn [config create_store db_filenames shutdown_after_creation import_files
       replication_active replication_master_active force_unslavify port
       file_exists replication_master_id port_in_use trace].
  intros -> Hfiles -> -> -> Hnz Hnas Hport.
  apply all_exist_none_missing in Hfiles.
  apply Z.eqb_neq in Hnz, Hnas.
  unfold server_main, catch_address_in_use, server_main_body, check_overwrite.
  unfold bind at 1. unfold bind at 1. unfold bind at 1. unfold bind at 1.
  unfold get_config at 1. unfold bind at 1.
  rewrite check_files_spec.
  cbn [config create_store db_filenames file_exists orb].
  rewrite Hfiles.
  unfold set_config, with_create_store, bind, get_config, when, ret,
    fail_due_to_user_error.
  cbn [config create_store force_create shutdown_after_creation].
  rewrite andb_false_r. cbn [andb negb].
  unfold run_store, master_branch, standalone_branch, scoped, perform,
    listen, wait_for_sigint, set_replication_master_id,
    get_replication_master_id, was_slave, bind, when, ret,
    fail_due_to_user_error.
  destruct rma; [rewrite (Hport eq_refl) | destruct piu]; destruct fu;
    cbn; rewrite ?Hnz, ?Hnas; cbn;
    repeat split; intros;
    rewrite <- ?app_assoc; try reflexivity; try discriminate;
    apply in_or_app; right; cbn [In app]; auto 20.
Qed.

(** *** Computations that only add to the trace *)

Lemma appends_ret {A : Type} (a : A) : appends_only (ret a).
Proof.
  intros m m' o H. injection H as <- <-.
  split; [exists []; symmetry; apply app_nil_r|]. split; [reflexivity|discriminate].
Qed.

Lemma appends_perform (a : action) : appends_only (perform a).
Proof.
  intros m m' o H. injection H as <- <-. cbn.
  split; [exists [a]; reflexivity|]. split; [reflexivity|discriminate].
Qed.

Lemma appends_bind {A B : Type} (c : M A) (k : A -> M B) :
  appends_only c -> (forall a, appends_only (k a)) -> appends_only (bind c k).
Proof.
  intros Hc Hk m m' o H. unfold bind in H.
  destruct (c m) as [oc m1] eqn:Hcm.
  destruct (Hc _ _ _ Hcm) as ((added1 & Ht1) & Hcfg1 & Hne1).
  destruct oc as [a| |e].
  - destruct (Hk a _ _ _ H) as ((added2 & Ht2) & Hcfg2 & Hne2).
    split; [exists (added1 ++ added2); rewrite Ht2, Ht1, app_assoc; reflexivity|].
    split; [congruence | exact Hne2].
  - injection H as <- <-.
    split; [exists added1; exact Ht1|]. split; [exact Hcfg1 | discriminate].
  - injection H as <- <-.
    split; [exists added1; exact Ht1|]. split; [exact Hcfg1|].
    intros Heq. apply Hne1. injection Heq as ->. reflexivity.
Qed.

Lemma appends_when (b : bool) (c : M unit) :
  appends_only c -> appends_only (when b c).
Proof. intros Hc. destruct b; [exact Hc | apply appends_ret]. Qed.

Lemma appends_fail (e : user_error) :
  e <> Overwrite_existing_file -> appends_only (fail_due_to_user_error e).
Proof.
  intros He m m' o H. injection H as <- <-.
  split; [exists []; symmetry; apply app_nil_r|]. split; [reflexivity|].
  intros Heq. apply He. injection Heq as ->. reflexivity.
Qed.

Lemma appends_listen (p : Z) : appends_only (listen p).
Proof.
  intros m m' o H. unfold listen in H. destruct (port_in_use m).
  - injection H as <- <-.
    split; [exists []; symmetry; apply app_nil_r|]. split; [reflexivity|discriminate].
  - exact (appends_perform _ _ _ _ H).
Qed.

Lemma appends_get_replication_master_id : appends_only get_replication_master_id.
Proof.
  intros m m' o H. injection H as <- <-.
  split; [exists []; symmetry; apply app_nil_r|]. split; [reflexivity|discriminate].
Qed.

Lemma appends_set_replication_master_id (id : Z) :
  appends_only (set_replication_master_id id).
Proof.
  intros m m' o H. injection H as <- <-. cbn.
  split; [eexists; reflexivity|]. split; [reflexivity|discriminate].
Qed.

Lemma appends_scoped {A : Type} (ctor : M unit) (dtor : action) (body : M A) :
  appends_only ctor -> appends_only body -> appends_only (scoped ctor dtor body).
Proof.
  intros Hc Hb m m' o H. unfold scoped in H.
  destruct (ctor m) as [oc m1] eqn:Hcm.
  destruct (Hc _ _ _ Hcm) as ((added1 & Ht1) & Hcfg1 & Hne1).
  destruct oc as [[]| |e].
  - destruct (body m1) as [ob m2] eqn:Hbm.
    destruct (Hb _ _ _ Hbm) as ((added2 & Ht2) & Hcfg2 & Hne2).
    destruct ob as [a| |e]; injection H as <- <-; cbn.
    + split; [exists (added1 ++ added2 ++ [dtor]);
              rewrite Ht2, Ht1, <- !app_assoc; reflexivity|].
      split; [congruence | discriminate].
    + split; [exists (added1 ++ added2 ++ [dtor]);
              rewrite Ht2, Ht1, <- !app_assoc; reflexivity|].
      split; [congruence | discriminate].
    + split; [exists (added1 ++ added2); rewrite Ht2, Ht1, app_assoc; reflexivity|].
      split; [congruence | exact Hne2].
  - injection H as <- <-.
    split; [exists added1; exact Ht1|]. split; [exact Hcfg1 | discriminate].
  - injection H as <- <-.
    split; [exists added1; exact Ht1|]. split; [exact Hcfg1|].
    intros Heq. apply Hne1. injection Heq as ->. reflexivity.
Qed.

Lemma appends_import_all (files : list string) : appends_only (import_all files).
Proof.
  induction files as [|f rest IH]; cbn [import_all].
  - apply appends_ret.
  - apply appends_bind; [apply appends_perform | intros _; exact IH].
Qed.

Create HintDb appends discriminated.
Hint Resolve appends_ret appends_perform appends_when appends_listen
  appends_get_replication_master_id appends_set_replication_master_id
  appends_import_all : appends.

Ltac appends :=
  repeat match goal with
         | |- appends_only (bind _ _) => apply appends_bind; [|intros ?]
         | |- appends_only (scoped _ _ _) => apply appends_scoped
         | |- appends_only (when _ _) => apply appends_when
         | |- appends_only (fail_due_to_user_error _) =>
             apply appends_fail; discriminate
         | |- appends_only _ => solve [auto with appends]
         end.

Lemma appends_run_store (cfg : cmd_config_t) :
  appends_only (run_store NOT_A_SLAVE cfg).
Proof.
  unfold run_store, import_branch, slave_branch, master_branch,
    standalone_branch, wait_for_sigint.
  destruct (negb (is_empty (import_files cfg))), (replication_active cfg),
    (replication_master_active cfg); appends.
Qed.

Lemma none_exist_some_missing (f : string -> bool) (names : list string) :
  names <> [] -> existsb f names = false ->
  existsb (fun x => negb (f x)) names = true.
Proof.
  destruct names as [|x rest]; [congruence|]. intros _. cbn.
  intros H. apply orb_false_elim in H as [-> _]. reflexivity.
Qed.

(** [run_store] ends in a user error only on a store whose marker reads
    as slave, without [force_unslavify]. *)
Lemma run_store_user_error (cfg : cmd_config_t) (m : machine) (e : user_error) :
  fst (run_store NOT_A_SLAVE cfg m) = Exit_user_error e ->
  was_slave NOT_A_SLAVE (replication_master_id m) cfg = true.
Proof.
  destruct (was_slave NOT_A_SLAVE (replication_master_id m) cfg) eqn:Hslave;
    [reflexivity|].
  destruct m as [c fe mid piu tr].
  cbn [replication_master_id] in Hslave.
  unfold run_store, import_branch, slave_branch, master_branch,
    standalone_branch, scoped, listen, wait_for_sigint,
    set_replication_master_id, get_replication_master_id, bind, when, ret,
    fail_due_to_user_error, perform.
  cbn [config file_exists replication_master_id port_in_use trace].
  destruct (import_files cfg) as [|file files]; cbn [is_empty negb].
  - destruct (replication_active cfg).
    + destruct piu; cbn;
        [|destruct (is_empty (list_ascii_of_string (failover_script_path cfg)))];
        cbn; discriminate.
    + destruct (replication_master_active cfg).
      * destruct piu; cbn -[was_slave]; rewrite ?Hslave; cbn; discriminate.
      * cbn -[was_slave]. rewrite Hslave. destruct piu; cbn; discriminate.
  - cbn [import_all]. unfold bind, perform. rewrite import_all_spec.
    cbn. discriminate.
Qed.

(** C8.  (1) When creation is requested - by the flag, or because some
    configured file is missing - while some configured file exists and
    [force_create] is off, [server_main] ends in the overwrite error
    having done nothing: the trace is as it was, no store was created or
    opened, and only [create_store] may have been turned on.  (2) When
    none of the configured files exists (there being at least one), the
    check turns [create_store] on and raises no error; [server_main] goes
    on to create the stores before anything else, and it returns normally
    (a store just created does not carry a slave's marker; creation is
    outside [src/], so this is spelled out). *)
Theorem overwrite_guard (m : machine) :
  let cfg := config m in
  let any_exist := existsb (file_exists m) (db_filenames cfg) in
  let any_dontexist :=
    existsb (fun f => negb (file_exists m f)) (db_filenames cfg) in
  let m1 := {| config := with_create_store cfg true;
               file_exists := file_exists m;
               replication_master_id := replication_master_id m;
               port_in_use := port_in_use m;
               trace := trace m |} in
  (any_exist = true ->
   create_store cfg || any_dontexist = true ->
   force_create cfg = false ->
   main m = (Exit_user_error Overwrite_existing_file, m1))
  /\ (db_filenames cfg <> [] ->
      any_exist = false ->
      check_overwrite m = (Ok true, m1)
      /\ let (o, m') := main m in
         create_store (config m') = true
         /\ (exists rest,
               trace m' = trace m ++ Log_disk_info :: Create_store
                                  :: Create_metadata_store :: rest)
         /\ o <> Exit_user_error Overwrite_existing_file
         /\ (was_slave NOT_A_SLAVE created_replication_master_id cfg = false ->
             o = Ok tt)).
Proof.
  intros cfg any_exist any_dontexist m1. split.
  - intros Hex Hreq Hforce.
    unfold server_main, catch_address_in_use, server_main_body.
    unfold bind at 1. unfold bind at 1.
    rewrite check_overwrite_spec. fold cfg any_exist any_dontexist.
    rewrite Hex, Hreq, Hforce. reflexivity.
  - intros Hnames Hex.
    pose proof (none_exist_some_missing _ _ Hnames Hex) as Hmiss.
    assert (Hcheck : check_overwrite m = (Ok true, m1)).
    { rewrite check_overwrite_spec. fold cfg any_exist any_dontexist.
      unfold any_exist, any_dontexist in *. rewrite Hex, Hmiss, orb_true_r.
      reflexivity. }
    split; [exact Hcheck|].
    unfold server_main, catch_address_in_use, server_main_body.
    unfold bind at 1. unfold bind at 1.
    rewrite Hcheck. unfold m1.
    unfold bind at 1. unfold perform at 1.
    unfold when, create_stores. unfold bind at 1. unfold bind at 1.
    unfold perform at 1. unfold bind at 1. unfold perform at 1.
    unfold bind at 1. unfold get_config at 1.
    cbn [config trace file_exists replication_master_id port_in_use
         with_create_store shutdown_after_creation].
    destruct (shutdown_after_creation cfg); cbn [negb].
    + cbn. split; [reflexivity|].
      split; [eexists; rewrite <- !app_assoc; reflexivity|].
      split; [discriminate | reflexivity].
    + match goal with
      | |- context [run_store ?n ?c ?m0] =>
          pose proof (run_store_user_error c m0) as Herr;
          destruct (run_store n c m0) as [o m4] eqn:Hrun
      end.
      destruct (appends_run_store _ _ _ _ Hrun) as ((added & Ht) & Hcfg & Hne).
      cbn [trace config replication_master_id fst] in Ht, Hcfg, Herr.
      destruct o as [[]| |e]; cbn; rewrite ?Hcfg, ?Ht; cbn.
      * split; [reflexivity|].
        split; [eexists; rewrite <- !app_assoc; reflexivity|].
        split; [discriminate | reflexivity].
      * split; [reflexivity|].
        split; [eexists; rewrite <- !app_assoc; reflexivity|].
        split; [discriminate | reflexivity].
      * split; [reflexivity|].
        split; [eexists; rewrite <- !app_assoc; reflexivity|].
        split; [exact Hne|].
        intros Hnew. specialize (Herr e eq_refl).
        unfold was_slave in Herr, Hnew.
        change (force_unslavify (with_create_store cfg true))
          with (force_unslavify cfg) in Herr.
        rewrite Hnew in Herr. discriminate.
Qed.

End ServerMainProps.

(** [role_marker_guard] on a data file whose marker is 1234: refused
    as a master, with the store opened and the listener up; unslavified as
    a standalone server with [force_unslavify]. *)
Lemma role_marker_guard_witness :
  (let m := boot (sample_config true false) (fun _ => true) 1234 false in
   let (o, m') := server_main sample_NOT_A_SLAVE sample_created_id m in
   o = Exit_user_error Was_slave_now_master
   /\ replication_master_id m' = 1234
   /\ trace m' = [Log_disk_info; Open_metadata_store; Open_store; Listen 11211])
  /\ (let m := boot (sample_config false true) (fun _ => true) 1234 false in
      let (o, m') := server_main sample_NOT_A_SLAVE sample_created_id m in
      o = Ok tt
      /\ replication_master_id m' = sample_NOT_A_SLAVE
      /\ In (Set_replication_master_id sample_NOT_A_SLAVE) (trace m')
      /\ (false = false -> In Wait_for_sigint (trace m'))).
Proof.
  split.
  - exact (role_marker_guard sample_NOT_A_SLAVE sample_created_id
             (boot (sample_config true false) (fun _ => true) 1234 false)
             eq_refl eq_refl eq_refl eq_refl eq_refl
             ltac:(discriminate) ltac:(discriminate) (fun _ => eq_refl)).
  - exact (role_marker_guard sample_NOT_A_SLAVE sample_created_id
             (boot (sample_config false true) (fun _ => true) 1234 false)
             eq_refl eq_refl eq_refl eq_refl eq_refl
             ltac:(discriminate) ltac:(discriminate) ltac:(discriminate)).
Defined.

(** C4, as stated, fails for a master whose port is taken, on a slave's
    data file (marker 1234).  Without [force_unslavify], no user error
    ends the start: the listener, constructed before the marker is read,
    throws, and [server_main] returns through the handler of that
    exception.  With [force_unslavify], the start does not proceed either,
    and the marker is not set to [NOT_A_SLAVE]: it is still 1234. *)
Lemma master_port_taken_skips_role_marker_guard :
  let m := boot (sample_config true false) (fun _ => true) 1234 true in
  let m_forced := boot (sample_config true true) (fun _ => true) 1234 true in
  let main := server_main sample_NOT_A_SLAVE sample_created_id in
  ((replication_master_id m =? 0) = false
   /\ (replication_master_id m =? sample_NOT_A_SLAVE) = false
   /\ replication_master_active (config m) = true
   /\ force_unslavify (config m) = false
   /\ fst (main m) = Ok tt
   /\ trace (snd (main m))
      = [Log_disk_info; Open_metadata_store; Open_store; Close_store;
         Close_metadata_store; Log_address_in_use; Shutdown_thread_pool])
  /\ (replication_master_id m_forced = replication_master_id m
      /\ replication_master_active (config m_forced) = true
      /\ force_unslavify (config m_forced) = true
      /\ replication_master_id (snd (main m_forced)) = 1234
      /\ (1234 =? sample_NOT_A_SLAVE) = false
      /\ trace (snd (main m_forced)) = trace (snd (main m))).
Proof. cbv zeta. repeat split. Qed.

(** [overwrite_guard] on an existing data file with creation requested:
    the overwrite error, and an empty trace; and on a missing data file:
    the check passes with creation turned on, the stores get created and
    the server returns after serving. *)
Lemma overwrite_guard_witness :
  (let m := boot sample_config_create (fun _ => true) 0 false in
   server_main sample_NOT_A_SLAVE sample_created_id m
   = (Exit_user_error Overwrite_existing_file, m))
  /\ (let m := boot (sample_config false false) (fun _ => false) 0 false in
      check_overwrite m = (Ok true, boot sample_config_create (fun _ => false) 0 false)
      /\ let (o, m') := server_main sample_NOT_A_SLAVE sample_created_id m in
         create_store (config m') = true
         /\ (exists rest,
               trace m' = [] ++ Log_disk_info :: Create_store
                             :: Create_metadata_store :: rest)
         /\ o <> Exit_user_error Overwrite_existing_file
         /\ (was_slave sample_NOT_A_SLAVE sample_created_id
                       (sample_config false false) = false ->
             o = Ok tt)).
Proof.
  split.
  - exact (proj1 (overwrite_guard sample_NOT_A_SLAVE sample_created_id
                    (boot sample_config_create (fun _ => true) 0 false))
                 eq_refl eq_refl eq_refl).
  - exact (proj2 (overwrite_guard sample_NOT_A_SLAVE sample_created_id
                    (boot (sample_config false false) (fun _ => false) 0 false))
                 ltac:(discriminate) eq_refl).
Defined.

(** ** Keys *)

Lemma strlen_le_length (str : list ascii) : (strlen str <= List.length str)%nat.
Proof.
  induction str as [|c rest IH]; cbn; [lia|].
  destruct (Ascii.eqb c zero); lia.
Qed.

Lemma strlen_repeat (c : ascii) (n : nat) :
  c <> zero -> strlen (repeat c n) = n.
Proof.
  intros Hc. induction n as [|n IH]; cbn; [reflexivity|].
  destruct (Ascii.eqb_spec c zero); [contradiction|]. rewrite IH. reflexivity.
Qed.

Lemma to_int_small (x : Z) : 0 <= x < 2 ^ 31 -> to_int x = x.
Proof. intros Hx. unfold to_int. rewrite Z.mod_small; lia. Qed.

Section KeysProps.

Variable MAX_KEY_SIZE : Z.
Hypothesis MAX_KEY_SIZE_fits : 0 <= MAX_KEY_SIZE <= 255.

(** For strings shorter than [2^31] bytes and a buffer with room for
    [MAX_KEY_SIZE] bytes, [str_to_key] does what its name says: it
    returns [true] exactly when the string is at most [MAX_KEY_SIZE]
    long, the key then has the length and the bytes of the string, and
    the buffer is returned as it was otherwise. *)
Lemma str_to_key_spec (str : list ascii) (buf : store_key_t) :
  Z.of_nat (strlen str) < 2 ^ 31 ->
  MAX_KEY_SIZE <= Z.of_nat (List.length (contents buf)) ->
  (Z.of_nat (strlen str) <= MAX_KEY_SIZE ->
   exists buf',
     str_to_key MAX_KEY_SIZE str buf = Some (true, buf')
     /\ size buf' = Z.of_nat (strlen str)
     /\ key_bytes buf' = firstn (strlen str) str
     /\ size buf' <= MAX_KEY_SIZE)
  /\ (MAX_KEY_SIZE < Z.of_nat (strlen str) ->
      str_to_key MAX_KEY_SIZE str buf = Some (false, buf)).
Proof.
  intros Hlen Hroom. unfold str_to_key.
  rewrite to_int_small by lia.
  pose proof (strlen_le_length str) as Hle.
  split; intros Hcmp.
  - destruct (Z.leb_spec (Z.of_nat (strlen str)) MAX_KEY_SIZE); [|lia].
    unfold memcpy.
    replace (0 <=? Z.of_nat (strlen str)) with true by (symmetry; apply Z.leb_le; lia).
    replace (Z.of_nat (strlen str) <=? Z.of_nat (List.length (contents buf)))
      with true by (symmetry; apply Z.leb_le; lia).
    replace (Z.of_nat (strlen str) <=? Z.of_nat (List.length str))
      with true by (symmetry; apply Z.leb_le; lia).
    cbn [andb]. rewrite Nat2Z.id.
    eexists. split; [reflexivity|].
    assert (Hsize : to_uint8 (Z.of_nat (strlen str)) = Z.of_nat (strlen str)).
    { unfold to_uint8, wrap. apply Z.mod_small. change (2 ^ 8) with 256. lia. }
    cbn [size contents]. unfold key_bytes. cbn [size contents].
    rewrite Hsize, Nat2Z.id. repeat split; [|lia].
    rewrite firstn_app, firstn_firstn, Nat.min_id.
    rewrite length_firstn, Nat.min_l by lia.
    rewrite Nat.sub_diag, firstn_O, app_nil_r. reflexivity.
  - destruct (Z.leb_spec (Z.of_nat (strlen str)) MAX_KEY_SIZE); [lia|].
    reflexivity.
Qed.

(** C9, at a string of [2^32] bytes.  [strlen] is [2^32], which [int len]
    holds as 0: [str_to_key] returns [true] and an empty key for a string
    longer than [MAX_KEY_SIZE]. *)
Theorem str_to_key_length_wraps (buf : store_key_t) :
  let str := repeat "a"%char (Z.to_nat (2 ^ 32)) in
  Z.of_nat (strlen str) = 2 ^ 32
  /\ MAX_KEY_SIZE < Z.of_nat (strlen str)
  /\ str_to_key MAX_KEY_SIZE str buf
     = Some (true, {| size := 0; contents := contents buf |}).
Proof.
  intros str.
  assert (Hlen : Z.of_nat (strlen str) = 2 ^ 32).
  { unfold str. rewrite strlen_repeat by discriminate.
    apply Z2Nat.id. apply Z.pow_nonneg. lia. }
  split; [exact Hlen|]. split; [rewrite Hlen; change (2 ^ 32) with 4294967296; lia|].
  unfold str_to_key. rewrite Hlen.
  change (to_int (2 ^ 32)) with 0.
  destruct (Z.leb_spec 0 MAX_KEY_SIZE); [|lia].
  unfold memcpy. generalize str. intros s.
  replace (0 <=? Z.of_nat (List.length (contents buf))) with true
    by (symmetry; apply Z.leb_le; lia).
  replace (0 <=? Z.of_nat (List.length s)) with true
    by (symmetry; apply Z.leb_le; lia).
  reflexivity.
Qed.

End KeysProps.

(** [str_to_key_length_wraps] with [MAX_KEY_SIZE] 250. *)
Lemma str_to_key_length_wraps_witness :
  0 <= 250 <= 255
  /\ str_to_key 250 (repeat "a"%char (Z.to_nat (2 ^ 32))) sample_buffer
     = Some (true, {| size := 0; contents := contents sample_buffer |}).
Proof.
  split; [lia|].
  exact (proj2 (proj2 (str_to_key_length_wraps 250 ltac:(lia) sample_buffer))).
Defined.

(* ================================================================== *)
(** * Part III.  Further properties of the code                        *)
(* ================================================================== *)

(** ** Keys: strings of ordinary length *)

(** X1.  On a string shorter than [2^31] bytes and a buffer with room for
    [MAX_KEY_SIZE <= 255] bytes, [str_to_key] never faults; it accepts
    the string exactly when it is at most [MAX_KEY_SIZE] bytes long; an
    accepted string becomes the key ([size] and bytes), the rest of the
    buffer and its capacity stay as they were; a refused string leaves the
    buffer untouched. *)
Theorem str_to_key_short_strings
    (MAX_KEY_SIZE : Z) (str : list ascii) (buf : store_key_t) :
  0 <= MAX_KEY_SIZE <= 255 ->
  Z.of_nat (strlen str) < 2 ^ 31 ->
  MAX_KEY_SIZE <= Z.of_nat (List.length (contents buf)) ->
  exists (ok : bool) (buf' : store_key_t),
    str_to_key MAX_KEY_SIZE str buf = Some (ok, buf')
    /\ (ok = true <-> Z.of_nat (strlen str) <= MAX_KEY_SIZE)
    /\ (ok = true ->
        size buf' = Z.of_nat (strlen str)
        /\ key_bytes buf' = firstn (strlen str) str
        /\ skipn (strlen str) (contents buf') = skipn (strlen str) (contents buf)
        /\ List.length (contents buf') = List.length (contents buf))
    /\ (ok = false -> buf' = buf).
Proof.
  intros Hmax Hlen Hroom.
  pose proof (strlen_le_length str) as Hle.
  destruct (str_to_key_spec MAX_KEY_SIZE Hmax str buf Hlen Hroom) as [Hyes Hno].
  destruct (Z.le_gt_cases (Z.of_nat (strlen str)) MAX_KEY_SIZE) as [Hfit | Hlong].
  - destruct (Hyes Hfit) as (buf' & Hrun & Hsize & Hbytes & _).
    exists true, buf'. split; [exact Hrun|].
    split; [tauto|]. split; [|discriminate].
    intros _. split; [exact Hsize|]. split; [exact Hbytes|].
    unfold str_to_key in Hrun. rewrite to_int_small in Hrun by lia.
    destruct (Z.leb_spec (Z.of_nat (strlen str)) MAX_KEY_SIZE); [|lia].
    unfold memcpy in Hrun.
    destruct ((0 <=? Z.of_nat (strlen str))
              && (Z.of_nat (strlen str) <=? Z.of_nat (List.length (contents buf)))
              && (Z.of_nat (strlen str) <=? Z.of_nat (List.length str)));
      [|discriminate].
    injection Hrun as <-. cbn [contents]. rewrite Nat2Z.id.
    assert (Hfl : List.length (firstn (strlen str) str) = strlen str)
      by (rewrite length_firstn; lia).
    split.
    + rewrite skipn_app, Hfl, Nat.sub_diag, skipn_O.
      rewrite skipn_all2 by lia. reflexivity.
    + rewrite length_app, Hfl, length_skipn. lia.
  - exists false, buf. split; [exact (Hno Hlong)|].
    split; [split; [discriminate | lia]|]. split; [discriminate | reflexivity].
Qed.

(** [str_to_key_short_strings] on a three-byte string. *)
Lemma str_to_key_short_strings_witness :
  exists (ok : bool) (buf' : store_key_t),
    str_to_key 250 ["k"; "e"; "y"]%char sample_buffer = Some (ok, buf')
    /\ (ok = true <-> 3 <= 250)
    /\ (ok = true ->
        size buf' = 3
        /\ key_bytes buf' = ["k"; "e"; "y"]%char
        /\ skipn 3 (contents buf') = skipn 3 (contents sample_buffer)
        /\ List.length (contents buf') = List.length (contents sample_buffer))
    /\ (ok = false -> buf' = sample_buffer).
Proof.
  exact (str_to_key_short_strings 250 ["k"; "e"; "y"]%char sample_buffer
           ltac:(lia) ltac:(reflexivity) ltac:(discriminate)).
Defined.

(** ** Buffer groups *)

Lemma to_uint64_add_int64 (x s : Z) :
  to_uint64 (x + to_int64 s) = to_uint64 (x + s).
Proof.
  unfold to_uint64, to_int64, wrap.
  rewrite (Z.mod_eq (s + 2 ^ 63) (2 ^ 64)) by (apply Z.pow_nonzero; lia).
  replace (x + (s + 2 ^ 63 - 2 ^ 64 * ((s + 2 ^ 63) / 2 ^ 64) - 2 ^ 63))
    with (x + s + (- ((s + 2 ^ 63) / 2 ^ 64)) * 2 ^ 64) by ring.
  apply Z_mod_plus_full.
Qed.

Lemma to_uint64_add_idem (x y : Z) :
  to_uint64 (to_uint64 x + y) = to_uint64 (x + y).
Proof. unfold to_uint64. apply wrap_wrap_add. Qed.

(** While the index stays below the bound, the loop adds up the sizes. *)
Lemma get_size_from_sum (rest : list buffer_t) :
  forall i n s : Z,
    i + Z.of_nat (List.length rest) <= n ->
    get_size_from rest i n (to_uint64 s)
    = to_uint64 (s + fold_right Z.add 0 (map buf_size rest)).
Proof.
  induction rest as [|b rest IH]; intros i n s Hn; cbn [get_size_from map fold_right].
  - rewrite Z.add_0_r. reflexivity.
  - cbn [List.length] in Hn.
    destruct (Z.ltb_spec i n); [|lia].
    rewrite to_uint64_add_idem, IH by lia. f_equal. ring.
Qed.

Lemma get_size_total (g : buffer_group_t) :
  Z.of_nat (List.length g) < 2 ^ 31 ->
  get_size g = to_uint64 (fold_right Z.add 0 (map buf_size g)).
Proof.
  intros Hlen. unfold get_size. rewrite to_int_small by lia.
  change 0 with (to_uint64 0) at 2.
  rewrite get_size_from_sum by lia. reflexivity.
Qed.

Lemma add_buffers_app (calls : list (Z * Z)) :
  forall g : buffer_group_t,
    add_buffers calls g
    = g ++ map (fun c => {| buf_size := to_int64 (fst c); buf_data := snd c |}) calls.
Proof.
  induction calls as [|c calls IH]; intros g; cbn.
  - symmetry. apply app_nil_r.
  - unfold add_buffers in IH. rewrite IH. unfold add_buffer.
    rewrite <- app_assoc. reflexivity.
Qed.

Lemma sum_int64_sizes (calls : list (Z * Z)) (x : Z) :
  to_uint64 (x + fold_right Z.add 0
                   (map buf_size
                      (map (fun c => {| buf_size := to_int64 (fst c);
                                        buf_data := snd c |}) calls)))
  = to_uint64 (x + fold_right Z.add 0 (map fst calls)).
Proof.
  revert x. induction calls as [|c calls IH]; intros x; cbn [map fold_right buf_size].
  - reflexivity.
  - rewrite Z.add_assoc, IH.
    replace (x + to_int64 (fst c) + fold_right Z.add 0 (map fst calls))
      with (x + fold_right Z.add 0 (map fst calls) + to_int64 (fst c)) by ring.
    rewrite to_uint64_add_int64. f_equal. ring.
Qed.

(** X2.  As long as a group holds fewer than [2^31] buffers, [get_size]
    after a sequence of [add_buffer] calls is the size before plus the
    sizes added, as a [size_t] (modulo [2^64]): the passage of each size
    through the signed field [ssize_t size] loses nothing.  In particular
    a group built from nothing, of sizes that add up to less than [2^64],
    has exactly their sum. *)
Theorem get_size_add_buffers (calls : list (Z * Z)) (g : buffer_group_t) :
  Z.of_nat (List.length g) + Z.of_nat (List.length calls) < 2 ^ 31 ->
  get_size (add_buffers calls g)
  = to_uint64 (get_size g + fold_right Z.add 0 (map fst calls))
  /\ (g = [] ->
      0 <= fold_right Z.add 0 (map fst calls) < 2 ^ 64 ->
      get_size (add_buffers calls g) = fold_right Z.add 0 (map fst calls)).
Proof.
  intros Hlen.
  assert (Hsum : get_size (add_buffers calls g)
                 = to_uint64 (get_size g + fold_right Z.add 0 (map fst calls))).
  { rewrite add_buffers_app.
    rewrite get_size_total by (rewrite length_app, length_map; lia).
    rewrite (get_size_total g) by lia.
    rewrite map_app, fold_right_app.
    replace (fold_right Z.add
               (fold_right Z.add 0
                  (map buf_size
                     (map (fun c => {| buf_size := to_int64 (fst c);
                                       buf_data := snd c |}) calls)))
               (map buf_size g))
      with (fold_right Z.add 0 (map buf_size g)
            + fold_right Z.add 0
                (map buf_size
                   (map (fun c => {| buf_size := to_int64 (fst c);
                                     buf_data := snd c |}) calls))).
    - rewrite sum_int64_sizes. rewrite to_uint64_add_idem. reflexivity.
    - generalize (fold_right Z.add 0
                    (map buf_size
                       (map (fun c => {| buf_size := to_int64 (fst c);
                                         buf_data := snd c |}) calls))).
      intros z. induction (map buf_size g) as [|a l IHl]; cbn; lia. }
  split; [exact Hsum|].
  intros -> Hrange. rewrite Hsum. change (get_size []) with 0.
  unfold to_uint64, wrap. rewrite Z.add_0_l. apply Z.mod_small. exact Hrange.
Qed.

(** [get_size_add_buffers] on three buffers, one of them added with a size
    above [2^63]. *)
Lemma get_size_add_buffers_witness :
  get_size (add_buffers [(10, 4096); (20, 8192)] []) = 30
  /\ get_size (add_buffers [(2 ^ 63 + 5, 4096)] [{| buf_size := 7; buf_data := 0 |}])
     = 2 ^ 63 + 12.
Proof.
  split.
  - apply (proj2 (get_size_add_buffers [(10, 4096); (20, 8192)] []
                    ltac:(reflexivity))).
    + reflexivity.
    + cbn. lia.
  - rewrite (proj1 (get_size_add_buffers [(2 ^ 63 + 5, 4096)]
                      [{| buf_size := 7; buf_data := 0 |}] ltac:(reflexivity))).
    reflexivity.
Defined.

(** ** The layout of a cas *)

(** With a time and a counter of at most 32 bits each, the exclusive or of
    [make_castime] is a concatenation. *)
Lemma cas_of_concat (ts : repli_timestamp_t) (c : Z) :
  time_fits ts -> 0 <= c < 2 ^ 32 -> cas_of ts c = time ts * 2 ^ 32 + c.
Proof.
  unfold time_fits. intros Ht Hc. unfold cas_of, to_uint64, wrap.
  rewrite (Z.mod_small (time ts)) by lia.
  rewrite Z.shiftl_mul_pow2 by lia.
  rewrite (Z.mod_small (time ts * 2 ^ 32)) by lia.
  rewrite (Z.mod_small c) by lia.
  symmetry. apply Z.add_nocarry_lxor.
  apply Z.bits_inj'. intros n Hn.
  rewrite Z.land_spec, Z.bits_0.
  destruct (Z.lt_ge_cases n 32) as [Hlow | Hhigh].
  - rewrite Z.mul_pow2_bits_low by lia. reflexivity.
  - rewrite <- (Z.mod_small c (2 ^ 32)) by lia.
    rewrite (Z.mod_pow2_bits_high c 32 n) by lia.
    apply andb_false_r.
Qed.

Lemma std_max_fits (a b : repli_timestamp_t) :
  time_fits a -> time_fits b -> time_fits (std_max a b).
Proof.
  unfold time_fits. intros Ha Hb. rewrite std_max_time. lia.
Qed.

Section CasLayout.

Variable counter_bits : Z.
Hypothesis counter_bits_range : 0 < counter_bits <= 32.

Lemma counter_fits (c : Z) : 0 <= wrap counter_bits c < 2 ^ 32.
Proof.
  unfold wrap.
  pose proof (Z.mod_pos_bound c (2 ^ counter_bits)
                (pow2_pos counter_bits ltac:(lia))) as Hb.
  pose proof (Z.pow_le_mono_r 2 counter_bits 32 ltac:(lia) ltac:(lia)). lia.
Qed.

(** With a counter of at most 32 bits and a [time] that fits 32 bits, the
    cas that [make_castime] returns is the time, 32 bits up, plus the new
    counter. *)
Lemma make_castime_concat (s : timestamping_t) :
  time_fits (timestamp s) ->
  let (ct, s') := make_castime counter_bits s in
  castime_cas ct = time (timestamp s) * 2 ^ 32 + cas_counter s'
  /\ castime_cas ct / 2 ^ 32 = time (castime_timestamp ct).
Proof.
  intros Ht. unfold make_castime. cbn [castime_cas castime_timestamp cas_counter].
  pose proof (counter_fits (cas_counter s + 1)) as Hc.
  rewrite cas_of_concat by assumption.
  split; [reflexivity|].
  rewrite Z.div_add_l by lia. rewrite Z.div_small by lia. lia.
Qed.

(** X3.  With a counter of at most 32 bits and a [time] that fits 32 bits,
    the cas that [make_castime] returns holds the time in its high 32 bits
    and the new counter in its low 32 bits: both can be read back from
    it, and it fits 64 bits. *)
Theorem make_castime_layout (s : timestamping_t) :
  time_fits (timestamp s) ->
  let (ct, s') := make_castime counter_bits s in
  castime_cas ct = time (timestamp s) * 2 ^ 32 + cas_counter s'
  /\ castime_cas ct / 2 ^ 32 = time (castime_timestamp ct)
  /\ castime_cas ct mod 2 ^ 32 = cas_counter s'
  /\ 0 <= castime_cas ct < 2 ^ 64.
Proof.
  intros Ht. pose proof (make_castime_concat s Ht) as Hcat.
  unfold make_castime in *.
  cbn [castime_cas castime_timestamp cas_counter] in *.
  destruct Hcat as [Hval Hdiv].
  pose proof (counter_fits (cas_counter s + 1)) as Hc.
  unfold time_fits in Ht.
  set (c := wrap counter_bits (cas_counter s + 1)) in *.
  set (t := time (timestamp s)) in *.
  split; [exact Hval|]. split; [exact Hdiv|]. rewrite Hval. split.
  - rewrite Z.add_comm, Z_mod_plus_full. apply Z.mod_small. lia.
  - change (2 ^ 64) with (2 ^ 32 * 2 ^ 32). nia.
Qed.

(** Every castime of a history can be decoded in this way. *)
Lemma run_castimes_decode (calls : list call) :
  forall s : timestamping_t,
    time_fits (timestamp s) -> times_fit calls ->
    Forall (fun ct => castime_cas ct / 2 ^ 32 = time (castime_timestamp ct))
           (fst (run counter_bits calls s)).
Proof.
  induction calls as [|c rest IH]; intros s Ht Hfit; [constructor|].
  inversion Hfit as [|c' rest' Hc Hrest]; subst.
  destruct c as [|ts]; cbn [run].
  - pose proof (make_castime_concat s Ht) as Hlay.
    destruct (make_castime counter_bits s) as [ct s1] eqn:Hmk.
    specialize (IH s1).
    destruct (run counter_bits rest s1) as [cts s2].
    cbn [fst] in *. constructor; [apply Hlay|].
    apply IH; [|exact Hrest].
    unfold make_castime in Hmk. injection Hmk as _ <-. exact Ht.
  - apply IH; [|exact Hrest]. cbn [set_timestamp timestamp].
    apply std_max_fits; assumption.
Qed.

(** X4.  In a history whose times fit 32 bits, on a counter of at most 32
    bits, the cas tells the castime: two returned castimes with the same
    cas carry the same timestamp.  (A cas can only come back with the
    timestamp unchanged and the counter wrapped around.) *)
Theorem cas_determines_castime
    (calls : list call) (s : timestamping_t) (ct1 ct2 : castime_t) :
  time_fits (timestamp s) ->
  times_fit calls ->
  In ct1 (fst (run counter_bits calls s)) ->
  In ct2 (fst (run counter_bits calls s)) ->
  castime_cas ct1 = castime_cas ct2 ->
  ct1 = ct2.
Proof.
  intros Ht Hfit H1 H2 Hcas.
  pose proof (run_castimes_decode calls s Ht Hfit) as Hdec.
  rewrite Forall_forall in Hdec.
  pose proof (Hdec _ H1) as D1. pose proof (Hdec _ H2) as D2.
  destruct ct1 as [c1 [t1]], ct2 as [c2 [t2]]. cbn in *. subst c2.
  rewrite D1 in D2. subst t2. reflexivity.
Qed.

(** Below the wrap-around, what a history returns lies above the cas made
    of the stored time and counter. *)
Lemma run_cas_above (calls : list call) :
  forall s : timestamping_t,
    time_fits (timestamp s) -> times_fit calls ->
    0 <= cas_counter s ->
    cas_counter s + Z.of_nat (count_make_castime calls) < 2 ^ counter_bits ->
    Forall (fun ct => time (timestamp s) * 2 ^ 32 + cas_counter s < castime_cas ct)
           (fst (run counter_bits calls s)).
Proof.
  induction calls as [|c rest IH]; intros s Ht Hfit Hc0 Hroom; [constructor|].
  inversion Hfit as [|c' rest' Hc Hrest]; subst.
  destruct c as [|ts]; cbn [run count_make_castime] in *.
  - pose proof (make_castime_concat s Ht) as Hlay.
    destruct (make_castime counter_bits s) as [ct s1] eqn:Hmk.
    unfold make_castime in Hmk. injection Hmk as Hct Hs1.
    assert (Hw : wrap counter_bits (cas_counter s + 1) = cas_counter s + 1)
      by (unfold wrap; apply Z.mod_small; lia).
    assert (Hc1 : cas_counter s1 = cas_counter s + 1) by (subst s1; exact Hw).
    assert (Ht1 : timestamp s1 = timestamp s) by (subst s1; reflexivity).
    specialize (IH s1). rewrite Ht1, Hc1 in IH.
    destruct (run counter_bits rest s1) as [cts s2].
    cbn [fst] in *. destruct Hlay as (Hcas & _).
    constructor; [lia|].
    eapply Forall_impl; [|apply IH; try assumption; lia].
    cbn beta. intros a Ha. lia.
  - pose proof (std_max_time (timestamp s) ts) as Hmax.
    specialize (IH (set_timestamp ts s)).
    cbn [set_timestamp timestamp cas_counter] in IH.
    eapply Forall_impl; [|apply IH; try assumption;
                          apply std_max_fits; assumption].
    cbn beta. intros a Ha. rewrite Hmax in Ha. nia.
Qed.

(** X5.  Until the counter wraps around (the stored counter plus the number
    of calls stays below [2 ^ counter_bits]), the cas values that a
    history returns increase strictly, whatever [set_timestamp] calls
    come in between. *)
Theorem returned_cas_increasing (calls : list call) (s : timestamping_t) :
  time_fits (timestamp s) ->
  times_fit calls ->
  0 <= cas_counter s ->
  cas_counter s + Z.of_nat (count_make_castime calls) < 2 ^ counter_bits ->
  StronglySorted Z.lt (map castime_cas (fst (run counter_bits calls s))).
Proof.
  revert s. induction calls as [|c rest IH]; intros s Ht Hfit Hc0 Hroom;
    [constructor|].
  inversion Hfit as [|c' rest' Hc Hrest]; subst.
  destruct c as [|ts]; cbn [run count_make_castime] in *.
  - pose proof (make_castime_concat s Ht) as Hlay.
    destruct (make_castime counter_bits s) as [ct s1] eqn:Hmk.
    unfold make_castime in Hmk. injection Hmk as Hct Hs1.
    assert (Hw : wrap counter_bits (cas_counter s + 1) = cas_counter s + 1)
      by (unfold wrap; apply Z.mod_small; lia).
    assert (Hc1 : cas_counter s1 = cas_counter s + 1) by (subst s1; exact Hw).
    assert (Ht1 : timestamp s1 = timestamp s) by (subst s1; reflexivity).
    pose proof (run_cas_above rest s1) as Habove.
    specialize (IH s1). rewrite Ht1, Hc1 in IH, Habove.
    destruct (run counter_bits rest s1) as [cts s2].
    cbn [fst map] in *. destruct Hlay as (Hcas & _).
    constructor.
    + apply IH; try assumption; lia.
    + apply Forall_map.
      eapply Forall_impl; [|apply Habove; try assumption; lia].
      cbn beta. intros a Ha. lia.
  - apply IH; try assumption.
    cbn [set_timestamp timestamp]. apply std_max_fits; assumption.
Qed.

End CasLayout.

(** [make_castime_layout] on a 32-bit counter at 41, stamped 7. *)
Lemma make_castime_layout_witness :
  let s := {| cas_counter := 41; timestamp := {| time := 7 |} |} in
  let (ct, s') := make_castime 32 s in
  castime_cas ct = 7 * 2 ^ 32 + cas_counter s'
  /\ castime_cas ct / 2 ^ 32 = time (castime_timestamp ct)
  /\ castime_cas ct mod 2 ^ 32 = cas_counter s'
  /\ 0 <= castime_cas ct < 2 ^ 64.
Proof.
  exact (make_castime_layout 32 ltac:(lia)
           {| cas_counter := 41; timestamp := {| time := 7 |} |}
           ltac:(unfold time_fits; cbn; lia)).
Defined.

(** [cas_determines_castime] and [returned_cas_increasing] on a call, an
    advance of the timestamp to 7 and a second call. *)
Lemma cas_determines_castime_witness :
  let calls := [Call_make_castime; Call_set_timestamp {| time := 7 |};
                Call_make_castime] in
  let ct := {| castime_cas := 30064771074; castime_timestamp := {| time := 7 |} |} in
  In ct (fst (run 32 calls timestamping_init)) /\ ct = ct.
Proof.
  intros calls ct.
  assert (Hin : In ct (fst (run 32 calls timestamping_init)))
    by (right; left; reflexivity).
  split; [exact Hin|].
  apply (cas_determines_castime 32 ltac:(lia) calls timestamping_init ct ct).
  - unfold time_fits. cbn. lia.
  - repeat constructor; unfold time_fits; cbn; lia.
  - exact Hin.
  - exact Hin.
  - reflexivity.
Defined.

Lemma returned_cas_increasing_witness :
  StronglySorted Z.lt [1; 30064771074].
Proof.
  apply (returned_cas_increasing 32 ltac:(lia)
           [Call_make_castime; Call_set_timestamp {| time := 7 |};
            Call_make_castime] timestamping_init).
  - unfold time_fits. cbn. lia.
  - repeat constructor; unfold time_fits; cbn; lia.
  - cbn. lia.
  - cbn. lia.
Defined.

(** ** The state a history leaves *)

Section HistoryState.

Variable counter_bits : Z.

(** X6.  After any history, as many castimes were returned as
    [make_castime] was called, the counter has advanced by that number
    (modulo [2 ^ counter_bits]), and the stored time is the largest of
    the time at the start and the times given to [set_timestamp]:
    [set_timestamp] never touches the counter, [make_castime] never the
    timestamp. *)
Theorem run_final_state (calls : list call) (s : timestamping_t) :
  0 <= cas_counter s < 2 ^ counter_bits ->
  let (cts, s') := run counter_bits calls s in
  List.length cts = count_make_castime calls
  /\ cas_counter s'
     = wrap counter_bits (cas_counter s + Z.of_nat (count_make_castime calls))
  /\ time (timestamp s') = latest_time calls (time (timestamp s)).
Proof.
  revert s. induction calls as [|c rest IH]; intros s Hc.
  - cbn. repeat split. unfold wrap. rewrite Z.add_0_r.
    symmetry. apply Z.mod_small. exact Hc.
  - destruct c as [|ts]; cbn [run count_make_castime latest_time].
    + unfold make_castime at 1.
      assert (Hpos : 0 < 2 ^ counter_bits) by lia.
      specialize (IH {| cas_counter := wrap counter_bits (cas_counter s + 1);
                        timestamp := timestamp s |}
                     (Z.mod_pos_bound _ _ Hpos)).
      destruct (run counter_bits rest _) as [cts s2].
      cbn [cas_counter timestamp] in IH.
      destruct IH as (Hlen & Hcnt & Htime).
      split; [cbn; lia|]. split; [|exact Htime].
      rewrite Hcnt, wrap_wrap_add. f_equal. lia.
    + specialize (IH (set_timestamp ts s) Hc).
      destruct (run counter_bits rest (set_timestamp ts s)) as [cts s2].
      cbn [set_timestamp cas_counter timestamp] in IH.
      rewrite std_max_time in IH. exact IH.
Qed.

End HistoryState.

(** [run_final_state] on an 8-bit counter at 254 that is advanced three
    times: it ends at 1. *)
Lemma run_final_state_witness :
  let s := {| cas_counter := 254; timestamp := {| time := 5 |} |} in
  let calls := [Call_make_castime; Call_set_timestamp {| time := 9 |};
                Call_make_castime; Call_set_timestamp {| time := 3 |};
                Call_make_castime] in
  let (cts, s') := run 8 calls s in
  List.length cts = 3%nat
  /\ cas_counter s' = wrap 8 (254 + Z.of_nat 3)
  /\ time (timestamp s') = 9.
Proof.
  exact (run_final_state 8
           [Call_make_castime; Call_set_timestamp {| time := 9 |};
            Call_make_castime; Call_set_timestamp {| time := 3 |};
            Call_make_castime]
           {| cas_counter := 254; timestamp := {| time := 5 |} |}
           ltac:(cbn; lia)).
Defined.

(** ** Sequences of changes through the timestamping layer *)

Section ChangeHistoryProps.

Context {T : external_types}.
Variable counter_bits : Z.
Context {K : Type} {Target : set_store_t K}.

(** X7.  A sequence of [change] calls through the timestamping layer is the
    same sequence of [change] calls on the sink, in the same order, the
    [i]-th one carrying the castime of the [i]-th [make_castime] call; the
    layer returns the sink's results and ends in the state that these
    [make_castime] calls leave. *)
Theorem ts_changes_sink
    (reqs : list (sequence_group_t * mutation_t * order_token_t))
    (s : timestamping_t) (k : K) :
  let (cts, s') :=
    run counter_bits (repeat Call_make_castime (List.length reqs)) s in
  let (rs, k') := sink_changes (combine reqs cts) k in
  ts_changes counter_bits reqs (s, k) = (rs, (s', k'))
  /\ List.length cts = List.length reqs.
Proof.
  revert s k. induction reqs as [|[[seq_group mutation] token] rest IH];
    intros s k.
  - cbn. split; reflexivity.
  - cbn [List.length repeat run ts_changes ts_change].
    destruct (make_castime counter_bits s) as [ct s1].
    specialize (IH s1).
    destruct (run counter_bits (repeat Call_make_castime (List.length rest)) s1)
      as [cts s2].
    cbn [combine sink_changes].
    destruct (change_castime seq_group mutation ct token k) as [r k1].
    specialize (IH k1).
    destruct (sink_changes (combine rest cts) k1) as [rs k2].
    destruct IH as [IH Hlen]. rewrite IH. split; [reflexivity | cbn; lia].
Qed.

End ChangeHistoryProps.

(** ** server_main, mode by mode *)

Section ServerModes.

Variable NOT_A_SLAVE : Z.
Variable created_replication_master_id : Z.

Local Abbreviation main :=
  (server_main NOT_A_SLAVE created_replication_master_id).

(** Whether the overwrite guard fires, whether the stores get created, and
    the marker of the store that is then opened. *)
Local Abbreviation any_exist m :=
  (existsb (file_exists m) (db_filenames (config m))).
Local Abbreviation creates m :=
  (create_store (config m)
   || existsb (fun f => negb (file_exists m f)) (db_filenames (config m))).
Local Abbreviation refuses m :=
  (any_exist m && creates m && negb (force_create (config m))).
Local Abbreviation marker_at_open m :=
  (if creates m then created_replication_master_id
   else replication_master_id m).
Local Abbreviation creation m :=
  (if creates m then [Create_store; Create_metadata_store] else []).

Ltac start_main :=
  match goal with
  | m : machine |- _ =>
      destruct m as [[names cs fc sac imp ra rma fu fsp prt] fe mid piu tr]
  end;
  cbn [config create_store db_filenames shutdown_after_creation import_files
       replication_active replication_master_active force_unslavify port
       force_create failover_script_path
       file_exists replication_master_id port_in_use trace];
  unfold server_main, catch_address_in_use, server_main_body, check_overwrite;
  unfold bind at 1; unfold bind at 1; unfold bind at 1; unfold bind at 1;
  unfold get_config at 1; unfold bind at 1;
  rewrite check_files_spec;
  cbn [config create_store db_filenames file_exists orb].

Ltac finish_main :=
  unfold set_config, with_create_store, bind, get_config, when, ret,
    fail_due_to_user_error;
  cbn [config create_store force_create shutdown_after_creation];
  unfold run_store, import_branch, slave_branch, master_branch,
    standalone_branch, create_stores, scoped, perform, listen,
    wait_for_sigint, set_replication_master_id, get_replication_master_id,
    was_slave, bind, when, ret, fail_due_to_user_error.

(** X8.  With [shutdown_after_creation], once past the overwrite guard,
    [server_main] creates the stores if creation is due and stops: no
    store is opened, nothing listens, the marker is only what creation
    made it, and the thread pool is shut down. *)
Theorem shutdown_after_creation_only_creates (m : machine) :
  refuses m = false ->
  shutdown_after_creation (config m) = true ->
  main m
  = (Ok tt,
     {| config := with_create_store (config m) (creates m);
        file_exists := file_exists m;
        replication_master_id := marker_at_open m;
        port_in_use := port_in_use m;
        trace := trace m ++ [Log_disk_info] ++ creation m
                         ++ [Shutdown_thread_pool] |}).
Proof.
  start_main. intros Hguard ->. finish_main.
  destruct (cs || existsb (fun f => negb (fe f)) names);
    cbn in Hguard |- *; rewrite ?Hguard; cbn;
    rewrite <- ?app_assoc; reflexivity.
Qed.

(** X9.  With files to import, once past the overwrite guard,
    [server_main] opens the store, sets the marker to [NOT_A_SLAVE] without
    looking at it - a slave's data file included, with or without
    [force_unslavify] - imports the files in the order given, and shuts
    down: the replication flags are not consulted, nothing listens and no
    gate is opened. *)
Theorem import_mode_trace (m : machine) :
  refuses m = false ->
  shutdown_after_creation (config m) = false ->
  import_files (config m) <> [] ->
  main m
  = (Ok tt,
     {| config := with_create_store (config m) (creates m);
        file_exists := file_exists m;
        replication_master_id := NOT_A_SLAVE;
        port_in_use := port_in_use m;
        trace := trace m ++ [Log_disk_info] ++ creation m
                         ++ [Open_metadata_store; Open_store;
                             Set_replication_master_id NOT_A_SLAVE]
                         ++ map Import_memcache (import_files (config m))
                         ++ [Close_store; Close_metadata_store;
                             Shutdown_thread_pool] |}).
Proof.
  start_main. intros Hguard -> Himp.
  destruct imp as [|file files]; [congruence|].
  unfold set_config, with_create_store, bind, get_config, when, ret,
    fail_due_to_user_error.
  cbn [config create_store force_create shutdown_after_creation import_files].
  unfold run_store, import_branch, create_stores, scoped, perform,
    set_replication_master_id, bind.
  destruct (cs || existsb (fun f => negb (fe f)) names);
    cbn in Hguard |- *; rewrite ?Hguard; cbn;
    rewrite import_all_spec; cbn;
    rewrite <- ?app_assoc; reflexivity.
Qed.

(** X10.  As a slave ([replication_config.active], which wins over
    [replication_master_active]), with the port free, [server_main] never
    reads or writes the marker and never opens a gate itself: it listens,
    registers the failover script if one is configured and the query
    enabler, runs the slave until the interrupt, and then takes down the
    slave, the query enabler, the listener and the stores, in that order
    (the trace has no action for the end of the failover script). *)
Theorem slave_mode_trace (m : machine) :
  refuses m = false ->
  shutdown_after_creation (config m) = false ->
  import_files (config m) = [] ->
  replication_active (config m) = true ->
  port_in_use m = false ->
  main m
  = (Ok tt,
     {| config := with_create_store (config m) (creates m);
        file_exists := file_exists m;
        replication_master_id := marker_at_open m;
        port_in_use := false;
        trace := trace m ++ [Log_disk_info] ++ creation m
                         ++ [Open_metadata_store; Open_store;
                             Listen (port (config m))]
                         ++ (if is_empty (list_ascii_of_string
                                            (failover_script_path (config m)))
                             then []
                             else [Add_failover_script
                                     (failover_script_path (config m))])
                         ++ [Add_query_enabler; Run_slave; Wait_for_sigint;
                             Stop_slave; Remove_query_enabler; Stop_listening;
                             Close_store; Close_metadata_store;
                             Shutdown_thread_pool] |}).
Proof.
  start_main. intros Hguard -> -> -> ->. finish_main.
  destruct (cs || existsb (fun f => negb (fe f)) names);
    cbn in Hguard |- *; rewrite ?Hguard; cbn;
    destruct (is_empty (list_ascii_of_string fsp)); cbn;
    rewrite <- ?app_assoc; reflexivity.
Qed.

(** X11.  As a slave or as a master, when the port is taken the listener,
    which is constructed first, throws: the store is closed again, the
    error is logged, the thread pool is shut down and [server_main]
    returns.  The marker is not read: a master started on a slave's data
    file gets this outcome, not the user error, and the marker stays. *)
Theorem port_taken_before_marker_check (m : machine) :
  refuses m = false ->
  shutdown_after_creation (config m) = false ->
  import_files (config m) = [] ->
  replication_active (config m) || replication_master_active (config m) = true ->
  port_in_use m = true ->
  main m
  = (Ok tt,
     {| config := with_create_store (config m) (creates m);
        file_exists := file_exists m;
        replication_master_id := marker_at_open m;
        port_in_use := true;
        trace := trace m ++ [Log_disk_info] ++ creation m
                         ++ [Open_metadata_store; Open_store;
                             Close_store; Close_metadata_store;
                             Log_address_in_use; Shutdown_thread_pool] |}).
Proof.
  start_main. intros Hguard -> -> Hmode ->. finish_main.
  destruct (cs || existsb (fun f => negb (fe f)) names);
    cbn in Hguard |- *; rewrite ?Hguard; cbn;
    destruct ra, rma; try discriminate; cbn;
    rewrite <- ?app_assoc; reflexivity.
Qed.

(** X12.  As a master whose marker passes the check (never a slave, or
    [force_unslavify]), with the port free: the listener comes first,
    then the marker is set to [NOT_A_SLAVE], then the master runs until
    the interrupt; [server_main] opens no gate itself. *)
Theorem master_mode_trace (m : machine) :
  refuses m = false ->
  shutdown_after_creation (config m) = false ->
  import_files (config m) = [] ->
  replication_active (config m) = false ->
  replication_master_active (config m) = true ->
  port_in_use m = false ->
  was_slave NOT_A_SLAVE (marker_at_open m) (config m) = false ->
  main m
  = (Ok tt,
     {| config := with_create_store (config m) (creates m);
        file_exists := file_exists m;
        replication_master_id := NOT_A_SLAVE;
        port_in_use := false;
        trace := trace m ++ [Log_disk_info] ++ creation m
                         ++ [Open_metadata_store; Open_store;
                             Listen (port (config m));
                             Set_replication_master_id NOT_A_SLAVE;
                             Run_master; Wait_for_sigint; Stop_master;
                             Stop_listening; Close_store; Close_metadata_store;
                             Shutdown_thread_pool] |}).
Proof.
  start_main. intros Hguard -> -> -> -> -> Hok. finish_main.
  unfold was_slave in Hok. cbn [force_unslavify] in Hok.
  destruct (cs || existsb (fun f => negb (fe f)) names);
    cbn in Hguard |- *; rewrite ?Hguard; cbn; rewrite Hok; cbn;
    rewrite <- ?app_assoc; reflexivity.
Qed.

(** X13.  As a standalone server whose marker passes the check: the marker
    is set to [NOT_A_SLAVE], the gate for gets is opened, then the gate
    for sets, and only then the listener is constructed; at the interrupt
    the listener goes first, then the gate for sets, then the gate for
    gets, then the store.  When the port is taken, both gates are closed
    again in that order without a query having been served, and the
    marker has been set all the same. *)
Theorem standalone_mode_trace (m : machine) :
  refuses m = false ->
  shutdown_after_creation (config m) = false ->
  import_files (config m) = [] ->
  replication_active (config m) = false ->
  replication_master_active (config m) = false ->
  was_slave NOT_A_SLAVE (marker_at_open m) (config m) = false ->
  main m
  = (Ok tt,
     {| config := with_create_store (config m) (creates m);
        file_exists := file_exists m;
        replication_master_id := NOT_A_SLAVE;
        port_in_use := port_in_use m;
        trace := trace m ++ [Log_disk_info] ++ creation m
                         ++ [Open_metadata_store; Open_store;
                             Set_replication_master_id NOT_A_SLAVE;
                             Open_gets; Open_sets]
                         ++ (if port_in_use m then []
                             else [Listen (port (config m)); Wait_for_sigint;
                                   Stop_listening])
                         ++ [Close_sets; Close_gets; Close_store;
                             Close_metadata_store]
                         ++ (if port_in_use m then [Log_address_in_use] else [])
                         ++ [Shutdown_thread_pool] |}).
Proof.
  start_main. intros Hguard -> -> -> -> Hok. finish_main.
  unfold was_slave in Hok. cbn [force_unslavify] in Hok.
  destruct (cs || existsb (fun f => negb (fe f)) names);
    cbn in Hguard |- *; rewrite ?Hguard; cbn; rewrite Hok; cbn;
    destruct piu; cbn; rewrite <- ?app_assoc; reflexivity.
Qed.

End ServerModes.

(** ** server_main: how it ends *)

Section ServerOutcome.

Variable NOT_A_SLAVE : Z.
Variable created_replication_master_id : Z.

(** X15.  How [server_main] ends, for every configuration, file system,
    marker and port.  It ends in a user error in three cases only: the
    overwrite guard; a master on a free port whose store (as created or
    as found) carries a slave's marker, without [force_unslavify]; a
    standalone server in the same situation, whatever the port.  In every
    other case it returns: the exception of a taken port never escapes. *)
Theorem server_main_outcome (m : machine) :
  let cfg := config m in
  let creates :=
    create_store cfg
    || existsb (fun f => negb (file_exists m f)) (db_filenames cfg) in
  let marker :=
    if creates then created_replication_master_id
    else replication_master_id m in
  fst (server_main NOT_A_SLAVE created_replication_master_id m)
  = if existsb (file_exists m) (db_filenames cfg) && creates
       && negb (force_create cfg)
    then Exit_user_error Overwrite_existing_file
    else if shutdown_after_creation cfg then Ok tt
    else if negb (is_empty (import_files cfg)) then Ok tt
    else if replication_active cfg then Ok tt
    else if replication_master_active cfg then
      if port_in_use m then Ok tt
      else if was_slave NOT_A_SLAVE marker cfg
           then Exit_user_error Was_slave_now_master
           else Ok tt
    else if was_slave NOT_A_SLAVE marker cfg
         then Exit_user_error Was_slave_now_standalone
         else Ok tt.
Proof.
  destruct m as [[names cs fc sac imp ra rma fu fsp prt] fe mid piu tr].
  cbn [config create_store db_filenames shutdown_after_creation import_files
       replication_active replication_master_active force_unslavify port
       force_create failover_script_path
       file_exists replication_master_id port_in_use trace].
  unfold server_main, catch_address_in_use, server_main_body, check_overwrite.
  unfold bind at 1. unfold bind at 1. unfold bind at 1. unfold bind at 1.
  unfold get_config at 1. unfold bind at 1.
  rewrite check_files_spec.
  cbn [config create_store db_filenames file_exists orb].
  unfold set_config, with_create_store, bind, get_config, when, ret,
    fail_due_to_user_error.
  cbn [config create_store force_create shutdown_after_creation].
  generalize (existsb fe names) as any_exist.
  generalize (cs || existsb (fun f => negb (fe f)) names) as creates.
  intros creates any_exist.
  unfold run_store, import_branch, slave_branch, master_branch,
    standalone_branch, create_stores, scoped, perform, listen,
    wait_for_sigint, set_replication_master_id, get_replication_master_id,
    was_slave, bind, when, ret, fail_due_to_user_error.
  destruct any_exist, creates, fc; cbn; try reflexivity;
    (destruct sac; cbn; [reflexivity|]);
    (destruct imp as [|file files]; cbn;
     [|rewrite import_all_spec; reflexivity]);
    (destruct ra;
     [destruct piu; cbn; destruct (is_empty (list_ascii_of_string fsp));
      reflexivity|]);
    (destruct rma; [destruct piu; cbn; [reflexivity|] | cbn]);
    match goal with
    | |- context [negb (?x =? 0) && negb (?x =? NOT_A_SLAVE) && negb fu] =>
        destruct (negb (x =? 0) && negb (x =? NOT_A_SLAVE) && negb fu)
    end;
    cbn; try reflexivity; destruct piu; reflexivity.
Qed.

End ServerOutcome.

(** ** Witnesses of the mode theorems *)

(** [shutdown_after_creation_only_creates] on a missing data file. *)
Lemma shutdown_after_creation_only_creates_witness :
  trace (snd (server_main sample_NOT_A_SLAVE sample_created_id
                (boot (sample_config_mode true false []) (fun _ => false)
                      1234 false)))
  = [Log_disk_info; Create_store; Create_metadata_store; Shutdown_thread_pool].
Proof.
  rewrite (shutdown_after_creation_only_creates sample_NOT_A_SLAVE
             sample_created_id
             (boot (sample_config_mode true false []) (fun _ => false) 1234 false)
             eq_refl eq_refl).
  reflexivity.
Defined.

(** [import_mode_trace] on a slave's data file and two files to import. *)
Lemma import_mode_trace_witness :
  let m := boot (sample_config_mode false true ["a.mc"; "b.mc"]%string)
                (fun _ => true) 1234 true in
  replication_master_id (snd (server_main sample_NOT_A_SLAVE sample_created_id m))
  = sample_NOT_A_SLAVE
  /\ trace (snd (server_main sample_NOT_A_SLAVE sample_created_id m))
     = [Log_disk_info; Open_metadata_store; Open_store;
        Set_replication_master_id sample_NOT_A_SLAVE;
        Import_memcache "a.mc"; Import_memcache "b.mc";
        Close_store; Close_metadata_store; Shutdown_thread_pool].
Proof.
  intros m.
  rewrite (import_mode_trace sample_NOT_A_SLAVE sample_created_id m
             eq_refl eq_refl ltac:(discriminate)).
  split; reflexivity.
Defined.

(** [slave_mode_trace] on an existing data file. *)
Lemma slave_mode_trace_witness :
  let m := boot (sample_config_mode false true []) (fun _ => true) 1234 false in
  replication_master_id (snd (server_main sample_NOT_A_SLAVE sample_created_id m))
  = 1234
  /\ trace (snd (server_main sample_NOT_A_SLAVE sample_created_id m))
     = [Log_disk_info; Open_metadata_store; Open_store; Listen 11211;
        Add_failover_script "failover.sh"; Add_query_enabler; Run_slave;
        Wait_for_sigint; Stop_slave; Remove_query_enabler; Stop_listening;
        Close_store; Close_metadata_store; Shutdown_thread_pool].
Proof.
  intros m.
  rewrite (slave_mode_trace sample_NOT_A_SLAVE sample_created_id m
             eq_refl eq_refl eq_refl eq_refl eq_refl).
  split; reflexivity.
Defined.

(** [port_taken_before_marker_check] on a master started on a slave's data
    file. *)
Lemma port_taken_before_marker_check_witness :
  let m := boot (sample_config true false) (fun _ => true) 1234 true in
  fst (server_main sample_NOT_A_SLAVE sample_created_id m) = Ok tt
  /\ replication_master_id (snd (server_main sample_NOT_A_SLAVE
                                   sample_created_id m)) = 1234
  /\ trace (snd (server_main sample_NOT_A_SLAVE sample_created_id m))
     = [Log_disk_info; Open_metadata_store; Open_store; Close_store;
        Close_metadata_store; Log_address_in_use; Shutdown_thread_pool].
Proof.
  intros m.
  rewrite (port_taken_before_marker_check sample_NOT_A_SLAVE sample_created_id m
             eq_refl eq_refl eq_refl eq_refl eq_refl).
  repeat split.
Defined.

(** [master_mode_trace] on a data file that never served a slave. *)
Lemma master_mode_trace_witness :
  let m := boot (sample_config true false) (fun _ => true) 0 false in
  trace (snd (server_main sample_NOT_A_SLAVE sample_created_id m))
  = [Log_disk_info; Open_metadata_store; Open_store; Listen 11211;
     Set_replication_master_id sample_NOT_A_SLAVE; Run_master; Wait_for_sigint;
     Stop_master; Stop_listening; Close_store; Close_metadata_store;
     Shutdown_thread_pool].
Proof.
  intros m.
  rewrite (master_mode_trace sample_NOT_A_SLAVE sample_created_id m
             eq_refl eq_refl eq_refl eq_refl eq_refl eq_refl eq_refl).
  reflexivity.
Defined.

(** [standalone_mode_trace] with the port taken. *)
Lemma standalone_mode_trace_witness :
  let m := boot (sample_config false false) (fun _ => true) 0 true in
  replication_master_id (snd (server_main sample_NOT_A_SLAVE sample_created_id m))
  = sample_NOT_A_SLAVE
  /\ trace (snd (server_main sample_NOT_A_SLAVE sample_created_id m))
     = [Log_disk_info; Open_metadata_store; Open_store;
        Set_replication_master_id sample_NOT_A_SLAVE; Open_gets; Open_sets;
        Close_sets; Close_gets; Close_store; Close_metadata_store;
        Log_address_in_use; Shutdown_thread_pool].
Proof.
  intros m.
  rewrite (standalone_mode_trace sample_NOT_A_SLAVE sample_created_id m
             eq_refl eq_refl eq_refl eq_refl eq_refl eq_refl).
  split; reflexivity.
Defined.

(** ** The trial-period check *)

Section TimebombProps.

Variable TIMEBOMB_DAYS : Z.

Local Abbreviation trial := (TIMEBOMB_DAYS * seconds_in_a_day).

(** Within the trial, [check] schedules the next check at most twelve
    hours ahead and at most one second past the end; one second past the
    end, it explodes. *)
Lemma check_cases (creation_timestamp time_now : Z) :
  let elapsed := time_now - creation_timestamp in
  (elapsed = trial + 1 ->
   check TIMEBOMB_DAYS false creation_timestamp time_now = Check_exploded)
  /\ (0 <= elapsed <= trial ->
      exists secs,
        check TIMEBOMB_DAYS false creation_timestamp time_now
        = Check_scheduled (secs * 1000)
        /\ 1 <= secs <= 43200
        /\ (secs = 43200 /\ elapsed + secs <= trial + 1
            \/ elapsed + secs = trial + 1)).
Proof.
  intros elapsed. unfold check. cbn [negb]. fold elapsed. split.
  - intros He.
    destruct (Z.ltb_spec elapsed 0); [reflexivity|].
    destruct (Z.gtb_spec elapsed trial); [reflexivity | lia].
  - intros Hin.
    destruct (Z.ltb_spec elapsed 0); [lia|].
    destruct (Z.gtb_spec elapsed trial); [lia|].
    change timebomb_check_period_in_sec with 43200.
    destruct (Z.ltb_spec (trial - elapsed + 1) 43200).
    + exists (trial - elapsed + 1). repeat split; lia.
    + exists 43200. repeat split; lia.
Qed.

(** X16.  One call of [check], [elapsed] seconds after creation, all
    quantities being within the range where the doubles of the code are
    exact.  Cancelled
    checking does nothing.  A creation in the future or a trial that is
    over explodes.  Otherwise the next check is scheduled a whole number
    of seconds ahead, at least one second and at most twelve hours, and
    never later than one second after the end of the trial: it is twelve
    hours ahead, or exactly at that second. *)
Theorem check_schedule (creation_timestamp time_now : Z) :
  let elapsed := time_now - creation_timestamp in
  Z.abs elapsed < 2 ^ 53 ->
  Z.abs trial < 2 ^ 53 ->
  check TIMEBOMB_DAYS true creation_timestamp time_now = Check_cancelled
  /\ (elapsed < 0 \/ trial < elapsed ->
      check TIMEBOMB_DAYS false creation_timestamp time_now = Check_exploded)
  /\ (0 <= elapsed <= trial ->
      exists secs,
        check TIMEBOMB_DAYS false creation_timestamp time_now
        = Check_scheduled (secs * 1000)
        /\ 1 <= secs <= timebomb_check_period_in_sec
        /\ elapsed + secs <= trial + 1
        /\ (secs = timebomb_check_period_in_sec \/ elapsed + secs = trial + 1)).
Proof.
  intros elapsed _ _. unfold check. cbn [negb]. fold elapsed.
  split; [reflexivity|]. split.
  - intros [Hneg | Hover].
    + destruct (Z.ltb_spec elapsed 0); [reflexivity | lia].
    + destruct (Z.ltb_spec elapsed 0); [reflexivity|].
      destruct (Z.gtb_spec elapsed trial); [reflexivity | lia].
  - intros Hin.
    destruct (Z.ltb_spec elapsed 0); [lia|].
    destruct (Z.gtb_spec elapsed trial); [lia|].
    destruct (Z.ltb_spec (trial - elapsed + 1) timebomb_check_period_in_sec).
    + exists (trial - elapsed + 1). repeat split; lia.
    + exists timebomb_check_period_in_sec.
      change timebomb_check_period_in_sec with 43200 in *.
      repeat split; lia.
Qed.

(** X17.  The chain of checks, each run when its delay has passed, reaches
    [server_shutdown()] exactly one second after the end of the trial,
    wherever in the trial it starts; it takes one check per twelve hours
    left, rounded up, and one more. *)
Theorem checks_explode_after_trial (fuel : nat) :
  forall creation_timestamp time_now : Z,
    trial + 1 < 2 ^ 53 ->
    0 <= time_now - creation_timestamp <= trial ->
    (trial + 1 - (time_now - creation_timestamp) + 43199) / 43200 + 1
      <= Z.of_nat fuel ->
    explodes_at TIMEBOMB_DAYS fuel creation_timestamp time_now
    = Some (trial + 1).
Proof.
  assert (Hgen : forall creation_timestamp time_now : Z,
             trial + 1 < 2 ^ 53 ->
             0 <= time_now - creation_timestamp <= trial + 1 ->
             (trial + 1 - (time_now - creation_timestamp) + 43199) / 43200 + 1
               <= Z.of_nat fuel ->
             explodes_at TIMEBOMB_DAYS fuel creation_timestamp time_now
             = Some (trial + 1)).
  { induction fuel as [|fuel IH]; intros c now Hexact He Hfuel.
    - exfalso.
      assert (0 <= (trial + 1 - (now - c) + 43199) / 43200)
        by (apply Z.div_pos; lia).
      lia.
    - cbn [explodes_at].
      destruct (Z.eq_dec (now - c) (trial + 1)) as [Hend | Hnot].
      + destruct (check_cases c now) as (Hex & _).
        rewrite Hex by lia. f_equal. exact Hend.
      + destruct (check_cases c now) as (_ & Hsch).
        destruct (Hsch ltac:(lia)) as (secs & Hrun & Hsecs & Hcase).
        rewrite Hrun. rewrite Z.div_mul by lia.
        apply IH; [exact Hexact | lia |].
        replace (now + secs - c) with (now - c + secs) by lia.
        destruct Hcase as [[-> Hle] | Heq].
        * replace (trial + 1 - (now - c + 43200) + 43199)
            with (trial + 1 - (now - c) + 43199 + (-1) * 43200) by lia.
          rewrite Z.div_add by lia. lia.
        * rewrite Heq.
          replace (trial + 1 - (trial + 1) + 43199) with 43199 by lia.
          change (43199 / 43200) with 0.
          assert (1 <= (trial + 1 - (now - c) + 43199) / 43200).
          { apply Z.div_le_lower_bound; lia. }
          lia. }
  intros c now Hexact He Hfuel. apply Hgen; [exact Hexact | lia | exact Hfuel].
Qed.

End TimebombProps.

(** [check_schedule] on a 30-day trial, one hour before its end: the next
    check is set for the second after the end. *)
Lemma check_schedule_witness :
  exists secs,
    check 30 false 1000 2589400 = Check_scheduled (secs * 1000)
    /\ 1 <= secs <= timebomb_check_period_in_sec
    /\ 2589400 - 1000 + secs <= 30 * seconds_in_a_day + 1
    /\ (secs = timebomb_check_period_in_sec
        \/ 2589400 - 1000 + secs = 30 * seconds_in_a_day + 1).
Proof.
  exact (proj2 (proj2 (check_schedule 30 1000 2589400
                         ltac:(vm_compute; reflexivity)
                         ltac:(vm_compute; reflexivity)))
               ltac:(vm_compute; split; discriminate)).
Defined.

(** [checks_explode_after_trial] on a 30-day trial, from the creation on:
    62 checks, the last of which shuts the server down at the second after
    the end. *)
Lemma checks_explode_after_trial_witness :
  explodes_at 30 62 1000 1000 = Some (30 * seconds_in_a_day + 1).
Proof.
  apply (checks_explode_after_trial 30 62 1000 1000).
  - vm_compute. reflexivity.
  - vm_compute. split; discriminate.
  - vm_compute. discriminate.
Defined.

(** ** Keys: strings of 2 GiB and more *)

(** X18.  On a string of at least [2^31] and fewer than [2^32] bytes,
    [int len] is negative: the test [len <= MAX_KEY_SIZE] passes and
    [memcpy] is called with that negative count, which as a [size_t] is
    beyond any object.  [str_to_key] neither accepts nor refuses such a
    string: it faults. *)
Theorem str_to_key_negative_length
    (MAX_KEY_SIZE : Z) (str : list ascii) (buf : store_key_t) :
  0 <= MAX_KEY_SIZE ->
  2 ^ 31 <= Z.of_nat (strlen str) < 2 ^ 32 ->
  to_int (Z.of_nat (strlen str)) < 0
  /\ str_to_key MAX_KEY_SIZE str buf = None.
Proof.
  intros Hmax Hlen.
  assert (Hneg : to_int (Z.of_nat (strlen str)) = Z.of_nat (strlen str) - 2 ^ 32).
  { unfold to_int.
    replace (Z.of_nat (strlen str) + 2 ^ 31)
      with (Z.of_nat (strlen str) - 2 ^ 31 + 1 * 2 ^ 32) by lia.
    rewrite Z_mod_plus_full, Z.mod_small by lia. lia. }
  split; [lia|].
  unfold str_to_key. rewrite Hneg.
  destruct (Z.leb_spec (Z.of_nat (strlen str) - 2 ^ 32) MAX_KEY_SIZE); [|lia].
  unfold memcpy.
  destruct (Z.leb_spec 0 (Z.of_nat (strlen str) - 2 ^ 32)); [lia|].
  reflexivity.
Qed.

(** [str_to_key_negative_length] on a string of [2^31] bytes. *)
Lemma str_to_key_negative_length_witness :
  str_to_key 250 (repeat "a"%char (Z.to_nat (2 ^ 31))) sample_buffer = None.
Proof.
  apply (str_to_key_negative_length 250
           (repeat "a"%char (Z.to_nat (2 ^ 31))) sample_buffer).
  - lia.
  - rewrite strlen_repeat by discriminate.
    rewrite Z2Nat.id by lia. lia.
Defined.
